(** * Closure transform of GoCaml (package closure), checked against its specification

    The development embeds the closure transform with known-function
    optimisation ([transformWithKFO], [Transform]) over a functional model of
    the GCIL instruction graph, and the final check of the type-variable
    dereferencing pass ([derefTypeVars], package sema). *)

From stdpp Require Import gmap strings list fin_maps.

Set Default Proof Using "Type".

(** ** GCIL instruction model (package gcil) *)

(** Modelled from the spec: the value variants of package gcil, which is
    not in the sources (section 3: primitive operation, function literal,
    application with its indirect flag, closure construction).  A primitive
    operation is opaque but for the identifiers it reads.  The type is
    parametrised by the type of instructions; the [Body] of a function is
    its block, held as [Body.Top.Next], the first instruction after the
    leading NOP. *)
Inductive ValOf (I : Type) : Type :=
| Prim (Operands : list string)
| Fun (Params : list string) (Body : I)
| App (Callee : string) (Args : list string) (Closure : bool)
| MakeClsV (Vars : list string) (FunName : string).

Arguments Prim {I} Operands.
Arguments Fun {I} Params Body.
Arguments App {I} Callee Args Closure.
Arguments MakeClsV {I} Vars FunName.

(** Modelled from the spec: [gcil.Insn] (section 3: a block is a linked
    sequence with a leading marker and a terminal node without successor).
    An instruction binds [Ident] to [Val] and links to the [Next] one.
    [Bottom] is the terminal node of a block, the only one whose [Next] is
    nil; its own fields are never read by the pass. *)
#[warnings="-register-all"]
Inductive Insn : Type :=
| Bottom
| mkInsn (Ident : string) (Val : ValOf Insn) (Next : Insn).

(** [gcil.Block], entered at [block.Top.Next]. *)
Abbreviation Block := Insn.

Abbreviation nameSet := (gset string).

(** A [*gcil.Insn] (and the [*gcil.App] it holds) is identified by its
    position in the instruction graph handed to [Transform]: the index in
    the outermost block, then the index in the body of that function, ... *)
Abbreviation path := (list nat).

(** Modelled from the spec: [gcil.MakeCls], the captured identifiers and
    the name of the underlying function. *)
Record MakeCls := mkMakeCls { Vars : list string; FunName : string }.

Global Instance MakeCls_eq_dec : EqDecision MakeCls.
Proof. solve_decision. Defined.

(** ** Classification state *)

Record transformWithKFO := mkTrans {
  knownFuns : nameSet;
  replacedFuns : gmap path (option MakeCls);  (* None: nil, simply remove *)
  closureCalls : list path;
  closures : gmap string (list string);
  closureBlockFreeVars : gmap string nameSet
}.

Definition set_knownFuns (f : nameSet → nameSet) (t : transformWithKFO) :=
  mkTrans (f (knownFuns t)) (replacedFuns t) (closureCalls t) (closures t)
          (closureBlockFreeVars t).
Definition set_replacedFuns f (t : transformWithKFO) :=
  mkTrans (knownFuns t) (f (replacedFuns t)) (closureCalls t) (closures t)
          (closureBlockFreeVars t).
Definition set_closureCalls f (t : transformWithKFO) :=
  mkTrans (knownFuns t) (replacedFuns t) (f (closureCalls t)) (closures t)
          (closureBlockFreeVars t).
Definition set_closures f (t : transformWithKFO) :=
  mkTrans (knownFuns t) (replacedFuns t) (closureCalls t) (f (closures t))
          (closureBlockFreeVars t).
Definition set_closureBlockFreeVars f (t : transformWithKFO) :=
  mkTrans (knownFuns t) (replacedFuns t) (closureCalls t) (closures t)
          (f (closureBlockFreeVars t)).

(** [dup] copies the four maps entry by entry and shares the slice.  On
    values this is the identity; the reference-level behaviour is the
    subject of module [GoHeap] below. *)
Definition dup (trans : transformWithKFO) : transformWithKFO :=
  mkTrans (knownFuns trans) (replacedFuns trans) (closureCalls trans)
          (closures trans) (closureBlockFreeVars trans).

Section Explore.

(** [nameSet.toArray] ranges over a Go map, whose iteration order is
    unspecified and may differ from one loop to the next.  [toArray n s]
    is the enumeration produced by the [n]-th such loop of a run. *)
Variable toArray : nat → nameSet → list string.

(** The two functions of the free-variable analysis are not part of the
    sources at hand; [explore] is embedded over any such analysis. *)
Variable gatherFreeVars : Block → transformWithKFO → nameSet.
Variable gatherFreeVarsTillTheEnd : Block → transformWithKFO → nameSet.

(** [explore n trans p k insn]: [insn] is the [k]-th instruction of the
    block at path [p]; [n] counts the enumerations done so far.  [start] on
    a block is [explore] at its index 0. *)
Fixpoint explore (n : nat) (trans : transformWithKFO) (p : path) (k : nat)
         (insn : Insn) {struct insn} : transformWithKFO * nat :=
  match insn with
  | Bottom => (trans, n)  (* Reaches bottom of the block *)
  | mkInsn ident val next =>
    match val with
    | Fun params body =>
      let self := p ++ [k] in
      (* Assume the function is not a closure and try to transform its body *)
      let d := set_knownFuns (λ s, {[ident]} ∪ s) (dup trans) in
      let '(d, n) := explore n d self 0 body in
      (* Check there is no free variable actually *)
      let fv := gatherFreeVars body d ∖ list_to_set params in
      let '(trans, n) :=
        if decide (size fv ≠ 0) then
          let '(trans, n) := explore n trans self 0 body in
          let fv := gatherFreeVars body trans ∖ list_to_set params in
          let arr := toArray n fv in
          (set_closures (insert ident arr) trans, S n)
        else (trans, n) in
      (* Visit recursively *)
      let '(trans, n) := explore n trans p (S k) next in
      let fv := gatherFreeVarsTillTheEnd next trans in
      let trans := set_closureBlockFreeVars (insert ident fv) trans in
      let replaced :=
        if decide (ident ∈ fv)
        then Some (mkMakeCls (default [] (closures trans !! ident)) ident)
        else None in
      (set_replacedFuns (insert self replaced) trans, n)
    | App callee _ _ =>
      let trans :=
        if decide (callee ∈ knownFuns trans)
        then set_closureCalls (λ cs, cs ++ [p ++ [k]]) trans
        else trans in
      explore n trans p (S k) next
    | _ => explore n trans p (S k) next
    end
  end.

Definition start (n : nat) (trans : transformWithKFO) (p : path) (block : Block) :=
  explore n trans p 0 block.

End Explore.

(** ** Reading the instruction graph *)

(** The [k]-th instruction of a block: its identifier and value. *)
Fixpoint nthInsn (k : nat) (insn : Insn) {struct insn}
  : option (string * ValOf Insn) :=
  match insn with
  | Bottom => None
  | mkInsn ident val next =>
    match k with
    | 0 => Some (ident, val)
    | S k' => nthInsn k' next
    end
  end.

(** The instruction object a path points to. *)
Fixpoint insnAt (ir : Block) (p : path) : option (string * ValOf Insn) :=
  match p with
  | [] => None
  | k :: q =>
    match q with
    | [] => nthInsn k ir
    | _ =>
      match nthInsn k ir with
      | Some (_, Fun _ body) => insnAt body q
      | _ => None
      end
    end
  end.

(** ** Rewriting the graph (second half of [Transform]) *)

(** The fields of the instruction graph that [Transform] writes, as an
    overlay on the graph it was given: [app.Closure = true],
    [insn.Val = make] and [insn.RemoveFromList()]. *)
Record edits := mkEdits {
  closureSet : gset path;
  newVal : gmap path MakeCls;
  removed : gset path
}.

Definition noEdits : edits := mkEdits ∅ ∅ ∅.

(** Modelled from the spec: [Insn.RemoveFromList] (package gcil) is not in
    the sources; it detaches the instruction from its block. *)
Definition RemoveFromList (p : path) (e : edits) : edits :=
  mkEdits (closureSet e) (newVal e) ({[p]} ∪ removed e).

Definition setVal (p : path) (make : MakeCls) (e : edits) : edits :=
  mkEdits (closureSet e) (<[p := make]> (newVal e)) (removed e).

Definition setClosure (e : edits) (p : path) : edits :=
  mkEdits ({[p]} ∪ closureSet e) (newVal e) (removed e).

(** [insn.Ident] and the current [insn.Val], seen through the overlay. *)
Definition curInsn (ir : Block) (e : edits) (p : path) : option (string * ValOf Insn) :=
  match insnAt ir p with
  | None => None
  | Some (ident, val) =>
    match newVal e !! p with
    | Some make => Some (ident, MakeClsV (Vars make) (FunName make))
    | None => Some (ident, val)
    end
  end.

(** The state of the rewriting loop: the [toplevel] table under
    construction (a [*gcil.Fun] is named by the path of the instruction that
    defined it) and the edits made so far. *)
Abbreviation rewriting := (gmap string path * edits)%type.

(** One iteration of [for insn, make := range t.replacedFuns]; [None] is the
    panic. *)
Definition materialize (ir : Block) (acc : option rewriting)
           (d : path * option MakeCls) : option rewriting :=
  match acc with
  | None => None
  | Some (toplevel, e) =>
    match curInsn ir e d.1 with
    | Some (ident, Fun _ _) =>
      Some (<[ident := d.1]> toplevel,
            match d.2 with
            | None => RemoveFromList d.1 e
            | Some make => setVal d.1 make e
            end)
    | _ => None
    end
  end.

(** The graph as the code generator reads it after the edits. *)
Fixpoint view (e : edits) (p : path) (k : nat) (insn : Insn) {struct insn} : Insn :=
  match insn with
  | Bottom => Bottom
  | mkInsn ident val next =>
    let self := p ++ [k] in
    let rest := view e p (S k) next in
    if decide (self ∈ removed e) then rest
    else
      let val' :=
        match newVal e !! self with
        | Some make => MakeClsV (Vars make) (FunName make)
        | None =>
          match val with
          | Fun params body => Fun params (view e self 0 body)
          | App callee args cl =>
            App callee args (if decide (self ∈ closureSet e) then true else cl)
          | v => v
          end
        end in
      mkInsn ident val' rest
  end.

(** The function literal a [toplevel] entry points to, with its body as it
    stands after the edits. *)
Definition viewFun (ir : Block) (e : edits) (p : path) : option (list string * Block) :=
  match insnAt ir p with
  | Some (_, Fun params body) => Some (params, view e p 0 body)
  | _ => None
  end.

(** Modelled from the spec: [gcil.Program] (section 3), the top-level
    function table, the capture list of each closure and the rewritten
    outermost block. *)
Record Program := mkProgram {
  Toplevel : gmap string (list string * Block);
  Closures : gmap string (list string);
  Entry : Block
}.

Definition readProgram (ir : Block) (cls : gmap string (list string))
           (r : rewriting) : Program :=
  mkProgram (omap (viewFun ir r.2) r.1) cls (view r.2 [] 0 ir).

Definition emptyTrans : transformWithKFO := mkTrans ∅ ∅ [] ∅ ∅.

Section Transform.

Variable toArray : nat → nameSet → list string.
Variable gatherFreeVars : Block → transformWithKFO → nameSet.
Variable gatherFreeVarsTillTheEnd : Block → transformWithKFO → nameSet.

(** Go leaves the order of [range] over a map unspecified as well:
    [rangeReplaced m] is the order in which the loop over
    [t.replacedFuns] meets the entries. *)
Variable rangeReplaced :
  gmap path (option MakeCls) → list (path * option MakeCls).

(** The committed state [t] after [t.start(ir)]. *)
Definition classify (ir : Block) : transformWithKFO :=
  (start toArray gatherFreeVars gatherFreeVarsTillTheEnd 0 emptyTrans [] ir).1.

(** "Modify instructions in IR": both loops, on a graph in state [e],
    with a fresh [toplevel] table. *)
Definition rewrite (ir : Block) (t : transformWithKFO) (e : edits)
  : option rewriting :=
  let e := foldl setClosure e (closureCalls t) in
  foldl (materialize ir) (Some (∅, e)) (rangeReplaced (replacedFuns t)).

Definition Transform (ir : Block) : option Program :=
  let t := classify ir in
  match rewrite ir t noEdits with
  | Some r => Some (readProgram ir (closures t) r)
  | None => None
  end.

End Transform.

(** ** Free-variable analysis *)

(** Modelled from the spec: the free-variable analysis behind
    [gatherFreeVars] and [gatherFreeVarsTillTheEnd], which are not in the
    sources.  Following section 4.2, it collects every identifier read by
    an instruction from the given one to the end of the block that is not
    bound earlier in that stretch and is not in the known set of the state;
    a nested function contributes the free variables of its body minus its
    parameters and its own name. *)
Fixpoint freeVarsFrom (known : nameSet) (insn : Insn) {struct insn} : nameSet :=
  match insn with
  | Bottom => ∅
  | mkInsn ident val next =>
    match val with
    | Prim operands => list_to_set operands ∖ known
    | Fun params body =>
      freeVarsFrom known body ∖ list_to_set params ∖ {[ident]}
    | App callee args _ => list_to_set (callee :: args) ∖ known
    | MakeClsV vars _ => list_to_set vars ∖ known
    end ∪ (freeVarsFrom known next ∖ {[ident]})
  end.

(** Modelled from the spec: [gatherFreeVarsTillTheEnd], the free variables
    from an instruction to the end of its block, under a state. *)
Definition freeVarsFromPoint (insn : Insn) (state : transformWithKFO) : nameSet :=
  freeVarsFrom (knownFuns state) insn.

(** Modelled from the spec: [gatherFreeVars], the free variables of a
    block under a state. *)
Definition freeVars (block : Block) (state : transformWithKFO) : nameSet :=
  freeVarsFromPoint block state.

(** ** Induction over the instruction graph *)

Section InsnInduction.
Variable P : Insn → Prop.
Hypothesis P_bottom : P Bottom.
Hypothesis P_insn : ∀ ident val next,
  (∀ params body, val = Fun params body → P body) →
  P next → P (mkInsn ident val next).

Fixpoint Insn_graph_ind (insn : Insn) : P insn :=
  match insn with
  | Bottom => P_bottom
  | mkInsn ident val next =>
    P_insn ident val next
      (match val as v return ∀ params body, v = Fun params body → P body with
       | Fun ps b => λ params body H,
           match H in _ = w return
                 match w with Fun _ b' => P b' | _ => True end with
           | eq_refl => Insn_graph_ind b
           end
       | _ => λ params body H, ltac:(discriminate H)
       end)
      (Insn_graph_ind next)
  end.
End InsnInduction.


(** ** The steps of [explore] on a function literal, named *)

Definition assumeKnown (ident : string) (trans : transformWithKFO) : transformWithKFO :=
  set_knownFuns (λ s, {[ident]} ∪ s) (dup trans).

Section ExploreSteps.

Variable toArray : nat → nameSet → list string.
Variable gatherFreeVars : Block → transformWithKFO → nameSet.
Variable gatherFreeVarsTillTheEnd : Block → transformWithKFO → nameSet.

(** The exploratory visit of the body under the duplicated state. *)
Definition hypothesis (n : nat) (trans : transformWithKFO) (self : path)
           (ident : string) (body : Block) : transformWithKFO * nat :=
  explore toArray gatherFreeVars gatherFreeVarsTillTheEnd
          n (assumeKnown ident trans) self 0 body.

(** The test [len(fv) != 0] failed: the function is taken as known. *)
Definition confirmedKnown (n : nat) (trans : transformWithKFO) (self : path)
           (ident : string) (params : list string) (body : Block) : Prop :=
  size (gatherFreeVars body (hypothesis n trans self ident body).1
          ∖ list_to_set params) = 0.

(** The committed state after the test, and after the retry when the test
    found free variables. *)
Definition settle (n : nat) (trans : transformWithKFO) (self : path)
           (ident : string) (params : list string) (body : Block)
  : transformWithKFO * nat :=
  let h := hypothesis n trans self ident body in
  if decide (size (gatherFreeVars body h.1 ∖ list_to_set params) ≠ 0) then
    let r := explore toArray gatherFreeVars gatherFreeVarsTillTheEnd
                     h.2 trans self 0 body in
    (set_closures
       (insert ident (toArray r.2 (gatherFreeVars body r.1 ∖ list_to_set params)))
       r.1, S r.2)
  else (trans, h.2).

(** Lines 111 to 125: the decision recorded for the instruction. *)
Definition recordDecision (self : path) (ident : string) (next : Insn)
           (trans : transformWithKFO) : transformWithKFO :=
  let fv := gatherFreeVarsTillTheEnd next trans in
  let trans := set_closureBlockFreeVars (insert ident fv) trans in
  set_replacedFuns
    (insert self
       (if decide (ident ∈ fv)
        then Some (mkMakeCls (default [] (closures trans !! ident)) ident)
        else None))
    trans.

End ExploreSteps.

(** ** The rewriting loop, step by step *)

(** The write of one iteration of the loop over [t.replacedFuns]. *)
Definition applyDecision (e : edits) (d : path * option MakeCls) : edits :=
  match d.2 with
  | None => RemoveFromList d.1 e
  | Some make => setVal d.1 make e
  end.

(** The type assertion of [insn.Val] to a function literal succeeds. *)
Definition isFunAt (ir : Block) (e : edits) (p : path) : Prop :=
  ∃ ident params body, curInsn ir e p = Some (ident, Fun params body).

Global Instance isFunAt_dec ir e p : Decision (isFunAt ir e p).
Proof.
  unfold isFunAt. destruct (curInsn ir e p) as [[ident [?|ps b|? ? ?|? ?]]|];
    try (right; intros (? & ? & ? & ?); congruence).
  left. eauto.
Defined.

(** [insn.Ident] *)
Definition nameOf (ir : Block) (p : path) : string :=
  match insnAt ir p with
  | Some (ident, _) => ident
  | None => ""
  end.

Definition enterToplevel (ir : Block) (toplevel : gmap string path)
           (d : path * option MakeCls) : gmap string path :=
  <[nameOf ir d.1 := d.1]> toplevel.

(** The names of all function literals of a graph, nested ones included. *)
Fixpoint funNames (insn : Insn) {struct insn} : list string :=
  match insn with
  | Bottom => []
  | mkInsn ident val next =>
    match val with
    | Fun _ body => ident :: funNames body
    | _ => []
    end ++ funNames next
  end.

(** ** Runs *)

(** The enumerations a Go run can produce: [toArray] lists each member of
    the set once, the loop over [t.replacedFuns] meets each entry once. *)
Definition toArrayOrder (toArray : nat → nameSet → list string) : Prop :=
  ∀ n s, toArray n s ≡ₚ elements s.

Definition rangeOrder
  (rangeReplaced : gmap path (option MakeCls) → list (path * option MakeCls)) : Prop :=
  ∀ m, rangeReplaced m ≡ₚ map_to_list m.

(** One possible run: the enumerations of stdpp. *)
Definition toArray0 (n : nat) (s : nameSet) : list string := elements s.
Definition range0 (m : gmap path (option MakeCls)) : list (path * option MakeCls) :=
  map_to_list m.

(** Another one: both enumerations in the opposite order. *)
Definition toArray1 (n : nat) (s : nameSet) : list string := reverse (elements s).
Definition range1 (m : gmap path (option MakeCls)) : list (path * option MakeCls) :=
  reverse (map_to_list m).

(** A run of the whole pass with the spec's free-variable analysis. *)
Definition TransformS toArray rangeReplaced : Block → option Program :=
  Transform toArray freeVars freeVarsFromPoint rangeReplaced.

Definition classifyS toArray : Block → transformWithKFO :=
  classify toArray freeVars freeVarsFromPoint.

(** ** Inputs used below *)

Section Inputs.
Local Open Scope string_scope.

(** [let a = .. in let rec f x = x + a in f a]: [f] captures [a] and is
    called. *)
Definition callsClosure : Block :=
  mkInsn "a" (Prim [])
  (mkInsn "f" (Fun ["x"] (mkInsn "y" (Prim ["x"; "a"]) Bottom))
  (mkInsn "r" (App "f" ["a"] false) Bottom)).

(** [let rec f x = f x in ()] *)
Definition selfRecursive : Block :=
  mkInsn "f" (Fun ["x"] (mkInsn "r" (App "f" ["x"] false) Bottom))
  (mkInsn "u" (Prim []) Bottom).

(** [let rec f x = (let rec g y = y in g x) in ()]: [g] is defined and
    called inside [f], which captures nothing. *)
Definition nestedInKnown : Block :=
  mkInsn "f" (Fun ["x"]
    (mkInsn "g" (Fun ["y"] (mkInsn "s" (Prim ["y"]) Bottom))
    (mkInsn "r" (App "g" ["x"] false) Bottom)))
  (mkInsn "u" (Prim []) Bottom).

(** [let z = .. in let w = .. in let rec f x = x + z + w in f z] *)
Definition capturesTwo : Block :=
  mkInsn "z" (Prim [])
  (mkInsn "w" (Prim [])
  (mkInsn "f" (Fun ["x"] (mkInsn "r" (Prim ["x"; "z"; "w"]) Bottom))
  (mkInsn "b" (App "f" ["z"] false) Bottom))).

(** Two functions named [f] in different scopes: one inside the closure
    [g], one after it. *)
Definition sameNames : Block :=
  mkInsn "a" (Prim [])
  (mkInsn "g" (Fun ["z"]
     (mkInsn "f" (Fun ["x"] (mkInsn "s" (Prim ["x"; "a"]) Bottom))
     (mkInsn "r" (App "f" ["z"] false) Bottom)))
  (mkInsn "f" (Fun ["y"] (mkInsn "t" (Prim ["y"]) Bottom))
  (mkInsn "v" (Prim []) Bottom))).


End Inputs.

Section Expected.
Local Open Scope string_scope.

(** What [Transform] returns on [callsClosure]. *)
Definition callsClosure_out : Program :=
  mkProgram
    {[ "f" := (["x"], mkInsn "y" (Prim ["x"; "a"]) Bottom) ]}
    {[ "f" := ["a"] ]}
    (mkInsn "a" (Prim [])
    (mkInsn "f" (MakeClsV ["a"] "f")
    (mkInsn "r" (App "f" ["a"] false) Bottom))).

End Expected.

(** ** The statements under test *)


(** A decision that targets something else than a function literal. *)
Definition badDecision (ir : Block) (t : transformWithKFO) (e : edits) : Prop :=
  ∃ q d, replacedFuns t !! q = Some d ∧ ¬ isFunAt ir e q.

(** ** Reading and free occurrence, stated directly *)


(** [FreeIn x insn]: [x] is read from [insn] on at a place where it is not
    locally bound: no earlier instruction of the stretch binds it, and
    inside a nested function it is neither a parameter, nor the name of
    that function, nor bound earlier in its body. *)
Inductive FreeIn (x : string) : Insn → Prop :=
| FreeIn_prim ident operands next :
    x ∈ operands → FreeIn x (mkInsn ident (Prim operands) next)
| FreeIn_app ident callee args cl next :
    x ∈ callee :: args → FreeIn x (mkInsn ident (App callee args cl) next)
| FreeIn_makecls ident vars fn next :
    x ∈ vars → FreeIn x (mkInsn ident (MakeClsV vars fn) next)
| FreeIn_fun ident params body next :
    FreeIn x body → x ∉ params → x ≠ ident →
    FreeIn x (mkInsn ident (Fun params body) next)
| FreeIn_next ident val next :
    FreeIn x next → x ≠ ident → FreeIn x (mkInsn ident val next).

(** The rest of the block after the instruction at index [k]. *)
Fixpoint after (k : nat) (insn : Insn) {struct insn} : Insn :=
  match insn with
  | Bottom => Bottom
  | mkInsn _ _ next =>
    match k with
    | 0 => next
    | S k' => after k' next
    end
  end.

(** [insn.Next] for the instruction a path points to. *)
Fixpoint nextAt (ir : Block) (p : path) : Insn :=
  match p with
  | [] => Bottom
  | k :: q =>
    match q with
    | [] => after k ir
    | _ =>
      match nthInsn k ir with
      | Some (_, Fun _ body) => nextAt body q
      | _ => Bottom
      end
    end
  end.

(** The instructions that the committed traversal from a block reaches
    under the known set [K]: the function literals of the block, and
    those reached in the body of a function literal whose hypothesis
    fails. *)
Fixpoint reached (K : nameSet) (ir : Block) (p : path) : Prop :=
  match p with
  | [] => False
  | k :: q =>
    match nthInsn k ir with
    | Some (ident, Fun params body) =>
      match q with
      | [] => True
      | _ =>
        size (freeVarsFrom ({[ident]} ∪ K) body ∖ list_to_set params) ≠ 0 ∧
        reached K body q
      end
    | _ => False
    end
  end.

Section Expected2.
Local Open Scope string_scope.

(** What [Transform] returns on [nestedInKnown]: the literal of [g] is still
    in the body of [f]. *)
Definition nestedInKnown_out : Program :=
  mkProgram
    {[ "f" := (["x"],
               mkInsn "g" (Fun ["y"] (mkInsn "s" (Prim ["y"]) Bottom))
               (mkInsn "r" (App "g" ["x"] false) Bottom)) ]}
    ∅
    (mkInsn "u" (Prim []) Bottom).

End Expected2.

(** ** Determinism *)

(** Two runs on the same graph return equal programs. *)
Definition Deterministic (ir : Block) : Prop :=
  ∀ toArrayA toArrayB rangeA rangeB,
    toArrayOrder toArrayA → toArrayOrder toArrayB →
    rangeOrder rangeA → rangeOrder rangeB →
    TransformS toArrayA rangeA ir = TransformS toArrayB rangeB ir.

(** A capture list with its order forgotten: the members, in the order of
    stdpp's [elements]. *)
Definition canonList (l : list string) : list string :=
  elements (list_to_set l : nameSet).

Definition canonMakeCls (make : MakeCls) : MakeCls :=
  mkMakeCls (canonList (Vars make)) (FunName make).

Fixpoint canonInsn (insn : Insn) {struct insn} : Insn :=
  match insn with
  | Bottom => Bottom
  | mkInsn ident val next =>
    mkInsn ident
      match val with
      | Fun params body => Fun params (canonInsn body)
      | MakeClsV vars fn => MakeClsV (canonList vars) fn
      | v => v
      end
      (canonInsn next)
  end.

Definition canonProgram (prog : Program) : Program :=
  mkProgram ((λ f : list string * Block, (f.1, canonInsn f.2)) <$> Toplevel prog)
            (canonList <$> Closures prog)
            (canonInsn (Entry prog)).

Definition canonTrans (t : transformWithKFO) : transformWithKFO :=
  mkTrans (knownFuns t) (fmap (M:=option) canonMakeCls <$> replacedFuns t)
          (closureCalls t)
          (canonList <$> closures t) (closureBlockFreeVars t).

Definition canonEdits (e : edits) : edits :=
  mkEdits (closureSet e) (canonMakeCls <$> newVal e) (removed e).

(** ** The state as Go objects: [dup] and aliasing *)

Module GoHeap.

Abbreviation loc := nat.

(** A slice header over a backing array. *)
Record slice := mkSlice { array : loc; len : nat; cap : nat }.

(** The objects a [transformWithKFO] refers to.  Go maps are references to
    map objects; the values of [closureBlockFreeVars] are themselves
    references to [nameSet] objects; [closureCalls] is a slice.  The
    values of [closures] are slices that are stored once and never written
    again, and are kept as lists. *)
Record heap := mkHeap {
  nameSets : gmap loc nameSet;
  insnMaps : gmap loc (gmap path (option MakeCls));
  captureMaps : gmap loc (gmap string (list string));
  blockMaps : gmap loc (gmap string loc);
  arrays : gmap loc (list path);
  next : loc
}.

(** [*transformWithKFO] *)
Record transRef := mkRef {
  knownFunsRef : loc;
  replacedFunsRef : loc;
  closureCallsRef : slice;
  closuresRef : loc;
  closureBlockFreeVarsRef : loc
}.

(** [make] and the copying loop for each of the four maps; the slice header
    is copied, its backing array is shared. *)
Definition dup (h : heap) (trans : transRef) : heap * transRef :=
  let known := next h in
  let funs := S (next h) in
  let clss := S (S (next h)) in
  let blks := S (S (S (next h))) in
  (mkHeap
     (<[known := default ∅ (nameSets h !! knownFunsRef trans)]> (nameSets h))
     (<[funs := default ∅ (insnMaps h !! replacedFunsRef trans)]> (insnMaps h))
     (<[clss := default ∅ (captureMaps h !! closuresRef trans)]> (captureMaps h))
     (<[blks := default ∅ (blockMaps h !! closureBlockFreeVarsRef trans)]>
        (blockMaps h))
     (arrays h)
     (4 + next h),
   mkRef known funs (closureCallsRef trans) clss blks).

(** Go's [append]: with spare capacity the element is written into the
    shared backing array, otherwise a larger array is allocated and the
    elements are copied. *)
Definition append (h : heap) (s : slice) (x : path) : heap * slice :=
  if decide (len s < cap s) then
    (mkHeap (nameSets h) (insnMaps h) (captureMaps h) (blockMaps h)
            (<[array s := <[len s := x]> (default [] (arrays h !! array s))]>
               (arrays h))
            (next h),
     mkSlice (array s) (S (len s)) (cap s))
  else
    let newcap := S (len s) `max` (2 * cap s) in
    let old := default [] (arrays h !! array s) in
    (mkHeap (nameSets h) (insnMaps h) (captureMaps h) (blockMaps h)
            (<[next h := take (len s) old ++ [x] ++ replicate (newcap - S (len s)) []]>
               (arrays h))
            (S (next h)),
     mkSlice (next h) (S (len s)) newcap).

(** The writes that [explore] performs on a state. *)
Inductive update : Type :=
| AddKnown (name : string)
| SetReplaced (insn : path) (make : option MakeCls)
| AppendCall (app : path)
| SetClosure (name : string) (arr : list string)
| SetBlockFreeVars (name : string) (fv : nameSet).

Definition apply (st : heap * transRef) (u : update) : heap * transRef :=
  let '(h, t) := st in
  match u with
  | AddKnown name =>
    (mkHeap (<[knownFunsRef t :=
                 {[name]} ∪ default ∅ (nameSets h !! knownFunsRef t)]> (nameSets h))
            (insnMaps h) (captureMaps h) (blockMaps h) (arrays h) (next h), t)
  | SetReplaced insn make =>
    (mkHeap (nameSets h)
            (<[replacedFunsRef t :=
                 <[insn := make]> (default ∅ (insnMaps h !! replacedFunsRef t))]>
               (insnMaps h))
            (captureMaps h) (blockMaps h) (arrays h) (next h), t)
  | AppendCall app =>
    let '(h', s) := append h (closureCallsRef t) app in
    (h', mkRef (knownFunsRef t) (replacedFunsRef t) s (closuresRef t)
               (closureBlockFreeVarsRef t))
  | SetClosure name arr =>
    (mkHeap (nameSets h) (insnMaps h)
            (<[closuresRef t :=
                 <[name := arr]> (default ∅ (captureMaps h !! closuresRef t))]>
               (captureMaps h))
            (blockMaps h) (arrays h) (next h), t)
  | SetBlockFreeVars name fv =>
    (* [fv] is a set object just built by the analysis *)
    (mkHeap (<[next h := fv]> (nameSets h)) (insnMaps h) (captureMaps h)
            (<[closureBlockFreeVarsRef t :=
                 <[name := next h]>
                   (default ∅ (blockMaps h !! closureBlockFreeVarsRef t))]>
               (blockMaps h))
            (arrays h) (S (next h)), t)
  end.

(** What can be read of a state through its reference. *)
Definition observe (h : heap) (t : transRef) : transformWithKFO :=
  mkTrans
    (default ∅ (nameSets h !! knownFunsRef t))
    (default ∅ (insnMaps h !! replacedFunsRef t))
    (take (len (closureCallsRef t))
          (default [] (arrays h !! array (closureCallsRef t))))
    (default ∅ (captureMaps h !! closuresRef t))
    (omap (λ l, nameSets h !! l)
          (default ∅ (blockMaps h !! closureBlockFreeVarsRef t))).

(** The references of a state point to allocated objects. *)
Definition allocated (h : heap) (t : transRef) : Prop :=
  knownFunsRef t < next h ∧ replacedFunsRef t < next h ∧
  closuresRef t < next h ∧ closureBlockFreeVarsRef t < next h ∧
  array (closureCallsRef t) < next h ∧
  ∀ name l,
    default ∅ (blockMaps h !! closureBlockFreeVarsRef t) !! name = Some l →
    l < next h.

(** The slice of a state lies within its backing array. *)
Definition sliceOk (h : heap) (s : slice) : Prop :=
  len s ≤ cap s ∧ length (default [] (arrays h !! array s)) = cap s.

(** The same writes on the state as a value. *)
Definition applyValue (t : transformWithKFO) (u : update) : transformWithKFO :=
  match u with
  | AddKnown name => set_knownFuns (λ s, {[name]} ∪ s) t
  | SetReplaced insn make => set_replacedFuns (insert insn make) t
  | AppendCall app => set_closureCalls (λ cs, cs ++ [app]) t
  | SetClosure name arr => set_closures (insert name arr) t
  | SetBlockFreeVars name fv => set_closureBlockFreeVars (insert name fv) t
  end.

(** No [nameSet] held in [closureBlockFreeVars] is the known set itself:
    the analysis returns a set of its own. *)
Definition separate (h : heap) (t : transRef) : Prop :=
  ∀ name l,
    default ∅ (blockMaps h !! closureBlockFreeVarsRef t) !! name = Some l →
    l ≠ knownFunsRef t.

Definition wellFormed (h : heap) (t : transRef) : Prop :=
  allocated h t ∧ sliceOk h (closureCallsRef t) ∧ separate h t.

(** [apart h t h' d]: the heap [h'] and the duplicate [d] are such that
    nothing allocated in [h] is written through [d], except the unused
    part of the backing array of [t]'s slice. *)
Definition apart (h : heap) (t : transRef) (h' : heap) (d : transRef) : Prop :=
  next h ≤ next h' ∧
  (∀ l, l < next h →
        nameSets h' !! l = nameSets h !! l ∧
        insnMaps h' !! l = insnMaps h !! l ∧
        captureMaps h' !! l = captureMaps h !! l ∧
        blockMaps h' !! l = blockMaps h !! l) ∧
  take (len (closureCallsRef t))
       (default [] (arrays h' !! array (closureCallsRef t))) =
  take (len (closureCallsRef t))
       (default [] (arrays h !! array (closureCallsRef t))) ∧
  next h ≤ knownFunsRef d ∧ next h ≤ replacedFunsRef d ∧
  next h ≤ closuresRef d ∧ next h ≤ closureBlockFreeVarsRef d ∧
  (array (closureCallsRef d) < next h →
   array (closureCallsRef d) = array (closureCallsRef t) ∧
   len (closureCallsRef t) ≤ len (closureCallsRef d)).

(** A state with two recorded calls in an array of capacity three, so that
    the next [append] writes into the shared array. *)
Definition heap0 : heap :=
  mkHeap {[ 0 := ∅ ]} {[ 1 := ∅ ]} {[ 2 := ∅ ]} {[ 3 := ∅ ]}
         {[ 4 := [[0]; [1]; []] ]} 5.

Definition trans0 : transRef := mkRef 0 1 (mkSlice 4 2 3) 2 3.

End GoHeap.

(** ** Further notions for the properties of the pass *)

(** The instructions of a block itself, without those of nested bodies. *)
Fixpoint insns (insn : Insn) {struct insn} : list (string * ValOf Insn) :=
  match insn with
  | Bottom => []
  | mkInsn ident val next => (ident, val) :: insns next
  end.

Definition isFun (v : ValOf Insn) : Prop :=
  match v with
  | Fun _ _ => True
  | _ => False
  end.

(** The instructions that the rewriting has no decision for: primitive
    operations and applications. *)
Definition plain (iv : string * ValOf Insn) : bool :=
  match iv.2 with
  | Prim _ | App _ _ _ => true
  | _ => false
  end.

(** ** Dereferencing of type variables (package sema, deref.go) *)

Module deref.

(** Package types is not in the sources.  The types are taken as deref.go
    reads them: the cases of its type switches ([*Unit], [*Bool],
    [*String], [*Fun], [*Tuple], [*Array], [*Option], [*Var], and the
    [int | float] of the remaining case) and the fields it reads and
    writes ([Ret], [Params], [Elems], [Elem], [Ref], [ID]).  [IsGeneric]
    is the answer of the method of that name. *)
Abbreviation VarID := nat.

#[warnings="-register-all"]
Inductive Ty : Type :=
| Unit
| Bool
| Int
| Float
| String
| Fun (Ret : Ty) (Params : list Ty)
| Tuple (Elems : list Ty)
| Array (Elem : Ty)
| Option (Elem : Ty)
| Var (Ref : option Ty) (ID : VarID) (IsGeneric : bool).

(** [UnitType], the unit type object of package types. *)
Definition UnitType : Ty := Unit.

(** [locerr.Error]: the message and the notes added to it. *)
Abbreviation Error := (list string).

(** The fields of [typeVarDereferencer] that the functions below read or
    write. *)
Record typeVarDereferencer := mkDeref {
  err : option Error;
  symBounds : gmap string (gset VarID)
}.

(** The loop returns true at the first set that contains [id]; its answer
    does not depend on the order in which the map is ranged over. *)
Definition isInstantiated (d : typeVarDereferencer) (id : VarID) : bool :=
  bool_decide (map_Exists (λ _ ids, id ∈ ids) (symBounds d)).

Definition errMsg (d : typeVarDereferencer) (msg : string) : typeVarDereferencer :=
  mkDeref (match err d with
           | None => Some [msg]
           | Some e => Some (e ++ [msg])
           end)
          (symBounds d).

Section Unwrap.

(** [Var.String] belongs to package types. *)
Variable typeString : Ty → string.

(** A call returns the dereferencer after it and the pair [(Type, bool)]
    as an option.  The functions store each unwrapped component back into
    the object it came from ([fun.Ret = r], [t.Elems[i] = e], ...) and
    return that object: the model returns it as a value. *)
Abbreviation result := (typeVarDereferencer * option Ty)%type.

Definition unwrapVar (unwrap : typeVarDereferencer → Ty → result)
           (d : typeVarDereferencer) (Ref : option Ty) (ID : VarID)
           (IsGeneric : bool) : result :=
  match Ref with
  | Some ref => unwrap d ref
  | None =>
    if IsGeneric then
      if negb (isInstantiated d ID) then
        (errMsg d "Cannot instantiate generic type variable", None)
      else (d, Some (Var None ID IsGeneric))
    else
      (errMsg d ("Cannot instantiate free type variable: "
                 +:+ typeString (Var None ID IsGeneric)), None)
  end.

(** [for i, elem := range elems { e, ok := d.unwrap(elem); ...; elems[i] = e }] *)
Definition unwrapEach (unwrap : typeVarDereferencer → Ty → result)
  : typeVarDereferencer → list Ty → typeVarDereferencer * option (list Ty) :=
  fix loop d elems :=
    match elems with
    | [] => (d, Some [])
    | elem :: rest =>
      match unwrap d elem with
      | (d, None) => (d, None)
      | (d, Some e) =>
        match loop d rest with
        | (d, None) => (d, None)
        | (d, Some es) => (d, Some (e :: es))
        end
      end
    end.

Definition unwrapFun (unwrap : typeVarDereferencer → Ty → result)
           (d : typeVarDereferencer) (Ret : Ty) (Params : list Ty) : result :=
  match unwrap d Ret with
  | (d, None) => (d, None)
  | (d, Some r) =>
    match unwrapEach unwrap d Params with
    | (d, None) => (d, None)
    | (d, Some ps) => (d, Some (Fun r ps))
    end
  end.

Fixpoint unwrap (d : typeVarDereferencer) (target : Ty) {struct target} : result :=
  match target with
  | Fun ret params => unwrapFun unwrap d ret params
  | Tuple elems =>
    match unwrapEach unwrap d elems with
    | (d, None) => (d, None)
    | (d, Some es) => (d, Some (Tuple es))
    end
  | Array elem =>
    match unwrap d elem with
    | (d, None) => (d, None)
    | (d, Some e) => (d, Some (Array e))
    end
  | Option elem =>
    match unwrap d elem with
    | (d, None) => (d, None)
    | (d, Some e) => (d, Some (Option e))
    end
  | Var ref id generic => unwrapVar unwrap d ref id generic
  | _ => (d, Some target)
  end.

End Unwrap.

(** The loop follows the links of a variable to their end. *)
Fixpoint fixExternalFuncRet (ret : Ty) {struct ret} : Ty :=
  match ret with
  | Var None _ true => ret
  | Var None _ false => UnitType
  | Var (Some ref) _ _ => fixExternalFuncRet ref
  | _ => ret
  end.

(** A type in which no variable is left to follow or to reject: every
    variable is unlinked, generic and bound by a scheme in scope. *)
Fixpoint dereferenced (d : typeVarDereferencer) (t : Ty) {struct t} : bool :=
  match t with
  | Fun ret params => dereferenced d ret && forallb (dereferenced d) params
  | Tuple elems => forallb (dereferenced d) elems
  | Array elem | Option elem => dereferenced d elem
  | Var None id true => isInstantiated d id
  | Var _ _ _ => false
  | _ => true
  end.

End deref.

(** ** The entry of the dereferencing pass ([derefTypeVars], deref.go) *)

Module sema.

(** What a call of [derefTypeVars] comes to: a panic, or the error it
    returns to its caller ([None] is nil). *)
Inductive outcome : Type :=
| Panic (msg : string)
| Returned (e : option deref.Error).

(** The links of a type end in an unlinked variable. *)
Fixpoint endsUnlinked (t : deref.Ty) {struct t} : bool :=
  match t with
  | deref.Var None _ _ => true
  | deref.Var (Some ref) _ _ => endsUnlinked ref
  | _ => false
  end.

Section Deref.

Variable typeString : deref.Ty → string.

(** [unwrap] and its two helpers once more, now with the stores they make
    ([fun.Ret = r], [fun.Params[i] = p], [t.Elems[i] = e], [t.Elem = e]):
    a call gives the dereferencer after it, the object it was called on as
    the call leaves it, and the pair [(Type, bool)] as an option.  When a
    component fails, the components before it have been stored, the
    failing one is left as its own call left it and the ones after it are
    untouched.  A variable is never written; the object it links to is.
    Type objects are taken as trees: an object is reached along one path. *)
Abbreviation stored :=
  (deref.typeVarDereferencer * deref.Ty * option deref.Ty)%type.

Definition unwrapVar (unwrap : deref.typeVarDereferencer → deref.Ty → stored)
           (d : deref.typeVarDereferencer) (Ref : option deref.Ty)
           (ID : deref.VarID) (IsGeneric : bool) : stored :=
  match Ref with
  | Some ref =>
    let '(d, ref, r) := unwrap d ref in (d, deref.Var (Some ref) ID IsGeneric, r)
  | None =>
    let v := deref.Var None ID IsGeneric in
    if IsGeneric then
      if negb (deref.isInstantiated d ID) then
        (deref.errMsg d "Cannot instantiate generic type variable", v, None)
      else (d, v, Some v)
    else
      (deref.errMsg d ("Cannot instantiate free type variable: " +:+ typeString v),
       v, None)
  end.

(** The loop over the components: the components after the loop, and
    whether it ran to its end. *)
Definition unwrapEach (unwrap : deref.typeVarDereferencer → deref.Ty → stored)
  : deref.typeVarDereferencer → list deref.Ty →
    deref.typeVarDereferencer * list deref.Ty * bool :=
  fix loop d elems :=
    match elems with
    | [] => (d, [], true)
    | elem :: rest =>
      match unwrap d elem with
      | (d, elem, None) => (d, elem :: rest, false)
      | (d, _, Some e) =>
        let '(d, rest, ok) := loop d rest in (d, e :: rest, ok)
      end
    end.

Definition unwrapFun (unwrap : deref.typeVarDereferencer → deref.Ty → stored)
           (d : deref.typeVarDereferencer) (Ret : deref.Ty)
           (Params : list deref.Ty) : stored :=
  match unwrap d Ret with
  | (d, ret, None) => (d, deref.Fun ret Params, None)
  | (d, _, Some r) =>
    let '(d, params, ok) := unwrapEach unwrap d Params in
    (d, deref.Fun r params, if ok then Some (deref.Fun r params) else None)
  end.

Fixpoint unwrap (d : deref.typeVarDereferencer) (target : deref.Ty)
         {struct target} : stored :=
  match target with
  | deref.Fun ret params => unwrapFun unwrap d ret params
  | deref.Tuple elems =>
    let '(d, elems, ok) := unwrapEach unwrap d elems in
    (d, deref.Tuple elems, if ok then Some (deref.Tuple elems) else None)
  | deref.Array elem =>
    match unwrap d elem with
    | (d, elem, None) => (d, deref.Array elem, None)
    | (d, _, Some e) => (d, deref.Array e, Some (deref.Array e))
    end
  | deref.Option elem =>
    match unwrap d elem with
    | (d, elem, None) => (d, deref.Option elem, None)
    | (d, _, Some e) => (d, deref.Option e, Some (deref.Option e))
    end
  | deref.Var ref id generic => unwrapVar unwrap d ref id generic
  | _ => (d, target, Some target)
  end.

Definition externalSymError (d : deref.typeVarDereferencer) (n : string)
           (t : deref.Ty) : deref.typeVarDereferencer :=
  let d := deref.errMsg d ("Cannot determine type of external symbol '" +:+ n +:+ "'") in
  let d := deref.errMsg d ("Inferred as '" +:+ typeString t +:+ "'") in
  deref.errMsg d "External symbol cannot be generic type".

(** In the case of a function [symType] and [ty] are one object: the
    message and the value returned on failure show it with [Ret] fixed and
    with what [unwrapFun] has stored. *)
Fixpoint derefExternalSym (d : deref.typeVarDereferencer) (name : string)
         (symType : deref.Ty) {struct symType}
  : deref.typeVarDereferencer * deref.Ty :=
  match symType with
  | deref.Var None _ _ => (externalSymError d name symType, symType)
  | deref.Var (Some ref) _ _ => derefExternalSym d name ref
  | deref.Fun ret params =>
    match unwrapFun unwrap d (deref.fixExternalFuncRet ret) params with
    | (d, ty, None) => (externalSymError d name ty, ty)
    | (d, _, Some t) => (d, t)
    end
  | _ =>
    match unwrap d symType with
    | (d, symType, None) => (externalSymError d name symType, symType)
    | (d, _, Some t) => (d, t)
    end
  end.

(** [for n, t := range env.Externals { env.Externals[n] = ... }], over the
    entries of [env.Externals] in the order the loop meets them. *)
Definition derefExternals (d : deref.typeVarDereferencer)
           (externals : list (string * deref.Ty))
  : deref.typeVarDereferencer * list (string * deref.Ty) :=
  foldl (λ acc nt,
         let '(d, t) := derefExternalSym acc.1 nt.1 nt.2 in
         (d, acc.2 ++ [(nt.1, t)]))
        (d, []) externals.

(** [ast.Visit(v, root)] runs [VisitTopdown] and [VisitBottomup] over the
    program; package ast is not in the sources.  The walk starts from the
    dereferencer and the external symbols as the loop left them.  It ends
    in a panic ([pushScheme] and [derefSym] on a symbol that is not in
    [env.Table], [checkLess] and [checkEq] on an operand without inferred
    type) or returns, having left the dereferencer in some state. *)
Variable Visit : deref.typeVarDereferencer → list (string * deref.Ty) →
                 string + deref.typeVarDereferencer.

(** [fmt.Sprint] of the map of bound identifiers. *)
Variable boundsString : gmap string (gset deref.VarID) → string.

Definition derefTypeVars (externals : list (string * deref.Ty)) : outcome :=
  let v := deref.mkDeref None ∅ in
  let '(v, externals) := derefExternals v externals in
  match Visit v externals with
  | inl msg => Panic msg
  | inr v =>
    if decide (size (deref.symBounds v) ≠ 0) then
      Panic ("FATAL: Bound type variable must not exist at toplevel:"
             +:+ boundsString (deref.symBounds v))
    else Returned (deref.err v)
  end.

End Deref.

End sema.

(** ** The statement on fatal failure, as the specification has it *)

(** Fatal failure in the two invariant-violation cases only, and no
    user-facing error from either function. *)
Definition FailsOnlyFatally : Prop :=
  (∀ rangeReplaced ir t e, rangeOrder rangeReplaced →
     rewrite rangeReplaced ir t e = None ↔ badDecision ir t e) ∧
  (∀ typeString Visit boundsString externals,
     (∃ msg, sema.derefTypeVars typeString Visit boundsString externals
             = sema.Panic msg) ↔
     ∃ v, Visit (sema.derefExternals typeString (deref.mkDeref None ∅) externals).1
                (sema.derefExternals typeString (deref.mkDeref None ∅) externals).2
          = inr v ∧
          size (deref.symBounds v) ≠ 0) ∧
  (∀ typeString Visit boundsString externals e,
     sema.derefTypeVars typeString Visit boundsString externals
     ≠ sema.Returned (Some e)).

(** * Properties *)

(** ** Paths *)

Lemma insnAt_next ident val next j r :
  insnAt (mkInsn ident val next) (S j :: r) = insnAt next (j :: r).
Proof. reflexivity. Qed.

Lemma insnAt_body ident params body next j r :
  insnAt (mkInsn ident (Fun params body) next) (0 :: j :: r) = insnAt body (j :: r).
Proof. reflexivity. Qed.

Lemma insnAt_Bottom q : insnAt Bottom q = None.
Proof. by destruct q as [|k [|? ?]]. Qed.

Lemma insnAt_here ident val next :
  insnAt (mkInsn ident val next) [0] = Some (ident, val).
Proof. reflexivity. Qed.

(** ** What [explore] leaves alone *)

Section ExploreFacts.

Variable toArray : nat → nameSet → list string.
Variable gatherFreeVars : Block → transformWithKFO → nameSet.
Variable gatherFreeVarsTillTheEnd : Block → transformWithKFO → nameSet.

Local Abbreviation exploreG := (explore toArray gatherFreeVars gatherFreeVarsTillTheEnd).
Local Abbreviation settleG := (settle toArray gatherFreeVars gatherFreeVarsTillTheEnd).
Local Abbreviation hypothesisG := (hypothesis toArray gatherFreeVars gatherFreeVarsTillTheEnd).
Local Abbreviation recordG := (recordDecision gatherFreeVarsTillTheEnd).

Lemma explore_Fun n t p k ident params body next :
  exploreG n t p k (mkInsn ident (Fun params body) next) =
  let c := settleG n t (p ++ [k]) ident params body in
  let r := exploreG c.2 c.1 p (S k) next in
  (recordG (p ++ [k]) ident next r.1, r.2).
Proof.
  cbn [explore]. unfold settle, hypothesis, recordDecision, assumeKnown.
  destruct (exploreG n _ _ 0 body) as [d n1]. cbn [fst snd].
  destruct (decide _).
  - destruct (exploreG n1 t _ 0 body) as [t1 n2]. cbn [fst snd].
    by destruct (exploreG (S n2) _ p (S k) next).
  - cbn [fst snd]. by destruct (exploreG n1 t p (S k) next).
Qed.

Lemma explore_App n t p k ident callee args cl next :
  exploreG n t p k (mkInsn ident (App callee args cl) next) =
  exploreG n (if decide (callee ∈ knownFuns t)
             then set_closureCalls (λ cs, cs ++ [p ++ [k]]) t else t)
          p (S k) next.
Proof. reflexivity. Qed.

Lemma explore_other n t p k ident val next :
  (∀ params body, val ≠ Fun params body) →
  (∀ callee args cl, val ≠ App callee args cl) →
  exploreG n t p k (mkInsn ident val next) = exploreG n t p (S k) next.
Proof.
  intros HF HA. destruct val as [?|ps b|c a cl|? ?]; try done.
  - by destruct (HF ps b).
  - by destruct (HA c a cl).
Qed.

Lemma knownFuns_record self ident next t :
  knownFuns (recordG self ident next t) = knownFuns t.
Proof. reflexivity. Qed.

Lemma closureCalls_record self ident next t :
  closureCalls (recordG self ident next t) = closureCalls t.
Proof. reflexivity. Qed.

Lemma closures_record self ident next t :
  closures (recordG self ident next t) = closures t.
Proof. reflexivity. Qed.

Lemma replacedFuns_record self ident next t :
  replacedFuns (recordG self ident next t) =
  <[self := if decide (ident ∈ gatherFreeVarsTillTheEnd next t)
            then Some (mkMakeCls (default [] (closures t !! ident)) ident)
            else None]> (replacedFuns t).
Proof. reflexivity. Qed.

(** [explore] never writes the known set of the state it runs on: the only
    write is on the duplicate. *)
Lemma explore_knownFuns insn :
  ∀ n t p k, knownFuns (exploreG n t p k insn).1 = knownFuns t.
Proof.
  induction insn as [|ident val next IHbody IHnext] using Insn_graph_ind;
    intros n t p k; [done|].
  destruct val as [ops|params body|callee args cl|vars fn].
  - apply IHnext.
  - rewrite explore_Fun. cbn [fst snd]. rewrite knownFuns_record, IHnext.
    unfold settle. case_decide; cbn [fst snd]; [|done].
    apply (IHbody _ _ eq_refl).
  - rewrite explore_App, IHnext. by case_decide.
  - apply IHnext.
Qed.

Lemma settle_knownFuns n t self ident params body :
  knownFuns (settleG n t self ident params body).1 = knownFuns t.
Proof.
  unfold settle. case_decide; cbn [fst snd]; [|done]. apply explore_knownFuns.
Qed.

Lemma hypothesis_knownFuns n t self ident body :
  knownFuns (hypothesisG n t self ident body).1 = {[ident]} ∪ knownFuns t.
Proof. unfold hypothesis. by rewrite explore_knownFuns. Qed.

(** Call records are only appended, and only for instructions at or after
    the one explored; with an empty known set nothing is appended. *)
Lemma explore_closureCalls insn :
  ∀ n t p k, ∃ ext,
    closureCalls (exploreG n t p k insn).1 = closureCalls t ++ ext ∧
    (knownFuns t = ∅ → ext = []) ∧
    ∀ q, q ∈ ext → ∃ j r, q = p ++ (k + j) :: r.
Proof.
  induction insn as [|ident val next IHbody IHnext] using Insn_graph_ind;
    intros n t p k.
  { exists []. cbn. rewrite app_nil_r. split_and!; [done..|]. by intros q ?%elem_of_nil. }
  assert (Hshift : ∀ n' t', ∃ ext,
    closureCalls (exploreG n' t' p (S k) next).1 = closureCalls t' ++ ext ∧
    (knownFuns t' = ∅ → ext = []) ∧
    ∀ q, q ∈ ext → ∃ j r, q = p ++ (k + j) :: r).
  { intros n' t'. destruct (IHnext n' t' p (S k)) as (ext & E & Hk & Hq).
    exists ext. split_and!; [done..|].
    intros q Hin. destruct (Hq q Hin) as (j & r & ->).
    exists (S j), r. by rewrite Nat.add_succ_r. }
  destruct val as [ops|params body|callee args cl|vars fn].
  - apply Hshift.
  - rewrite explore_Fun. cbn [fst snd]. rewrite closureCalls_record.
    set (c := settleG n t (p ++ [k]) ident params body).
    destruct (Hshift c.2 c.1) as (ext2 & E2 & Hk2 & Hq2).
    assert (∃ ext1, closureCalls c.1 = closureCalls t ++ ext1 ∧
              (knownFuns t = ∅ → ext1 = []) ∧
              ∀ q, q ∈ ext1 → ∃ j r, q = p ++ (k + j) :: r)
      as (ext1 & E1 & Hk1 & Hq1).
    { subst c. unfold settle. case_decide; cbn [fst snd].
      - destruct (IHbody _ _ eq_refl (hypothesisG n t (p ++ [k]) ident body).2
                         t (p ++ [k]) 0) as (ext & E & Hk & Hq).
        exists ext. split_and!; [done..|].
        intros q Hin. destruct (Hq q Hin) as (j & r & ->).
        exists 0, (j :: r). by rewrite Nat.add_0_r, <- app_assoc.
      - exists []. rewrite app_nil_r. split_and!; [done..|]. by intros q ?%elem_of_nil. }
    exists (ext1 ++ ext2). split_and!.
    + by rewrite E2, E1, app_assoc.
    + intros HK. rewrite Hk1 by done. rewrite Hk2; [done|].
      subst c. by rewrite settle_knownFuns.
    + intros q [?|?]%elem_of_app; eauto.
  - rewrite explore_App.
    set (t' := if decide (callee ∈ knownFuns t) then _ else t).
    destruct (Hshift n t') as (ext & E & Hk & Hq).
    subst t'. case_decide as Hc.
    + exists ([p ++ [k]] ++ ext). split_and!.
      * rewrite E. cbn. by rewrite <- app_assoc.
      * intros HK. rewrite HK in Hc. set_solver.
      * intros q [->%list_elem_of_singleton|?]%elem_of_app; [|eauto].
        exists 0, []. by rewrite Nat.add_0_r.
    + exists ext. by split_and!.
  - apply Hshift.
Qed.

(** Decisions are only recorded at the explored instruction, after it in
    its block, or below one of these. *)
Lemma explore_replacedFuns_frame insn :
  ∀ n t p k q, (∀ j r, q ≠ p ++ (k + j) :: r) →
    replacedFuns (exploreG n t p k insn).1 !! q = replacedFuns t !! q.
Proof.
  induction insn as [|ident val next IHbody IHnext] using Insn_graph_ind;
    intros n t p k q Hq; [done|].
  assert (Hshift : ∀ n' t',
    replacedFuns (exploreG n' t' p (S k) next).1 !! q = replacedFuns t' !! q).
  { intros n' t'. apply IHnext. intros j r ->.
    apply (Hq (S j) r). by rewrite Nat.add_succ_r. }
  destruct val as [ops|params body|callee args cl|vars fn].
  - apply Hshift.
  - rewrite explore_Fun. cbn [fst snd]. rewrite replacedFuns_record.
    rewrite lookup_insert_ne.
    2:{ intros <-. apply (Hq 0 []). by rewrite Nat.add_0_r. }
    rewrite Hshift. unfold settle. case_decide; cbn [fst snd]; [|done].
    apply (IHbody _ _ eq_refl). intros j r ->.
    apply (Hq 0 (j :: r)). by rewrite Nat.add_0_r, <- app_assoc.
  - rewrite explore_App, Hshift. by case_decide.
  - apply Hshift.
Qed.

(** Every decision recorded by [explore] is for a function literal. *)
Lemma explore_replacedFuns_keys insn :
  ∀ n t p k q, is_Some (replacedFuns (exploreG n t p k insn).1 !! q) →
    is_Some (replacedFuns t !! q) ∨
    ∃ j r ident params body,
      q = p ++ (k + j) :: r ∧ insnAt insn (j :: r) = Some (ident, Fun params body).
Proof.
  induction insn as [|ident val next IHbody IHnext] using Insn_graph_ind;
    intros n t p k q; [by left|].
  assert (Hshift : ∀ n' t',
    is_Some (replacedFuns (exploreG n' t' p (S k) next).1 !! q) →
    is_Some (replacedFuns t' !! q) ∨
    ∃ j r ident' params body,
      q = p ++ (k + j) :: r ∧
      insnAt (mkInsn ident val next) (j :: r) = Some (ident', Fun params body)).
  { intros n' t' H. destruct (IHnext _ _ _ _ _ H) as [?|(j & r & i & ps & b & -> & Hat)];
      [by left|right].
    exists (S j), r, i, ps, b. by rewrite Nat.add_succ_r. }
  destruct val as [ops|params body|callee args cl|vars fn].
  - apply Hshift.
  - rewrite explore_Fun. cbn [fst snd]. rewrite replacedFuns_record.
    destruct (decide (p ++ [k] = q)) as [<-|Hne].
    { intros _. right. exists 0, [], ident, params, body.
      by rewrite Nat.add_0_r. }
    rewrite lookup_insert_ne by done. intros H.
    destruct (Hshift _ _ H) as [H'|?]; [|by right].
    revert H'. unfold settle. case_decide; cbn [fst snd]; [|by left].
    intros H'. destruct (IHbody _ _ eq_refl _ _ _ _ _ H')
      as [?|(j & r & i & ps & b & -> & Hat)]; [by left|right].
    exists 0, (j :: r), i, ps, b. by rewrite Nat.add_0_r, <- app_assoc.
  - rewrite explore_App. intros H. destruct (Hshift _ _ H) as [H'|?]; [|by right].
    left. revert H'. by case_decide.
  - apply Hshift.
Qed.

(** An entry of the closures mapping is never deleted. *)
Lemma explore_closures_mono insn :
  ∀ n t p k f, is_Some (closures t !! f) →
    is_Some (closures (exploreG n t p k insn).1 !! f).
Proof.
  induction insn as [|ident val next IHbody IHnext] using Insn_graph_ind;
    intros n t p k f Hf; [done|].
  destruct val as [ops|params body|callee args cl|vars fn].
  - by apply IHnext.
  - rewrite explore_Fun. cbn [fst snd]. rewrite closures_record.
    apply IHnext. unfold settle. case_decide; cbn [fst snd]; [|done].
    cbn. destruct (decide (ident = f)) as [->|]; [by rewrite lookup_insert_eq|].
    rewrite lookup_insert_ne by done. by apply (IHbody _ _ eq_refl).
  - rewrite explore_App. apply IHnext. by case_decide.
  - by apply IHnext.
Qed.

End ExploreFacts.

(** ** The rewriting loop *)

Lemma curInsn_applyDecision_ne ir e d q :
  d.1 ≠ q → curInsn ir (applyDecision e d) q = curInsn ir e q.
Proof.
  intros Hne. unfold curInsn, applyDecision.
  destruct d as [p [mk|]]; cbn in *; [|done].
  by rewrite lookup_insert_ne.
Qed.

Lemma curInsn_name ir e q ident val :
  curInsn ir e q = Some (ident, val) → nameOf ir q = ident.
Proof.
  unfold curInsn, nameOf. destruct (insnAt ir q) as [[i v]|]; [|done].
  destruct (newVal e !! q); congruence.
Qed.

Lemma materialize_Some ir top e d :
  isFunAt ir e d.1 →
  materialize ir (Some (top, e)) d =
  Some (enterToplevel ir top d, applyDecision e d).
Proof.
  intros (ident & ps & b & H). unfold materialize, enterToplevel, applyDecision.
  rewrite H, (curInsn_name _ _ _ _ _ H). by destruct d as [p [mk|]].
Qed.

Lemma materialize_None ir top e d :
  ¬ isFunAt ir e d.1 → materialize ir (Some (top, e)) d = None.
Proof.
  intros H. unfold materialize.
  destruct (curInsn ir e d.1) as [[ident [?|ps b|? ? ?|? ?]]|] eqn:E; try done.
  destruct H. unfold isFunAt. eauto.
Qed.

Lemma foldl_materialize_panic ir ds : foldl (materialize ir) None ds = None.
Proof. by induction ds. Qed.

(** With every key met once and a function literal at each, the loop runs
    through and performs exactly the writes of its iterations. *)
Lemma foldl_materialize_Some ir ds :
  NoDup ds.*1 → ∀ top e,
  (∀ d, d ∈ ds → isFunAt ir e d.1) →
  foldl (materialize ir) (Some (top, e)) ds =
  Some (foldl (enterToplevel ir) top ds, foldl applyDecision e ds).
Proof.
  induction ds as [|d ds IH]; intros Hnd top e Hfun; [done|].
  rewrite fmap_cons in Hnd. apply NoDup_cons in Hnd as [Hd Hnd].
  cbn [foldl]. rewrite materialize_Some by (apply Hfun; left).
  apply IH; [done|]. intros d' Hd'.
  destruct (Hfun d') as (i & ps & b & H); [by right|].
  exists i, ps, b. rewrite curInsn_applyDecision_ne; [done|].
  intros Heq. apply Hd. rewrite Heq. by apply list_elem_of_fmap_2.
Qed.

(** If some key does not hold a function literal, the loop panics. *)
Lemma foldl_materialize_None ir ds :
  NoDup ds.*1 → ∀ top e,
  (∃ d, d ∈ ds ∧ ¬ isFunAt ir e d.1) →
  foldl (materialize ir) (Some (top, e)) ds = None.
Proof.
  induction ds as [|d ds IH]; intros Hnd top e (d' & Hin & Hno).
  { by apply elem_of_nil in Hin. }
  rewrite fmap_cons in Hnd. apply NoDup_cons in Hnd as [Hd Hnd].
  cbn [foldl]. destruct (decide (isFunAt ir e d.1)) as [Hf|Hf].
  - rewrite materialize_Some by done. apply IH; [done|].
    apply elem_of_cons in Hin as [->|Hin]; [done|].
    exists d'. split; [done|]. intros (i & ps & b & H). apply Hno.
    exists i, ps, b. rewrite curInsn_applyDecision_ne in H; [done|].
    intros Heq. apply Hd. rewrite Heq. by apply list_elem_of_fmap_2.
  - rewrite materialize_None by done. apply foldl_materialize_panic.
Qed.

(** The edits after the loop, field by field. *)
Lemma foldl_applyDecision_closureSet ds :
  ∀ e, closureSet (foldl applyDecision e ds) = closureSet e.
Proof.
  induction ds as [|[q [mk|]] ds IH]; intros e; [done|..]; cbn [foldl];
    by rewrite IH.
Qed.

Lemma foldl_applyDecision_removed ds :
  ∀ e q, q ∈ removed (foldl applyDecision e ds) ↔
         (q, None) ∈ ds ∨ q ∈ removed e.
Proof.
  induction ds as [|[q' [mk|]] ds IH]; intros e q; cbn [foldl].
  - rewrite elem_of_nil. tauto.
  - rewrite IH, elem_of_cons. unfold applyDecision; cbn. naive_solver.
  - rewrite IH, elem_of_cons. unfold applyDecision; cbn.
    rewrite elem_of_union, elem_of_singleton. naive_solver.
Qed.

Lemma foldl_applyDecision_newVal_Some ds :
  NoDup ds.*1 → ∀ e q make, (q, Some make) ∈ ds →
  newVal (foldl applyDecision e ds) !! q = Some make.
Proof.
  induction ds as [|[q' d'] ds IH] using rev_ind; intros Hnd e q make Hin.
  { by apply elem_of_nil in Hin. }
  rewrite fmap_app in Hnd. apply NoDup_app in Hnd as (Hnd & Hdisj & _).
  rewrite foldl_app. cbn [foldl].
  apply elem_of_app in Hin as [Hin|Hin%list_elem_of_singleton].
  - assert (q' ≠ q) as Hne.
    { intros ->. apply (Hdisj q); [|cbn; left].
      by apply (list_elem_of_fmap_2 fst _ (q, Some make)). }
    unfold applyDecision at 1. destruct d' as [mk|]; cbn; [|by apply IH].
    rewrite lookup_insert_ne by done. by apply IH.
  - injection Hin as <- <-. unfold applyDecision at 1; cbn.
    by rewrite lookup_insert_eq.
Qed.

Lemma foldl_applyDecision_newVal_other ds :
  ∀ e q, (∀ make, (q, Some make) ∉ ds) →
  newVal (foldl applyDecision e ds) !! q = newVal e !! q.
Proof.
  induction ds as [|[q' d'] ds IH]; intros e q Hno; [done|].
  cbn [foldl]. rewrite IH.
  2:{ intros make Hin. apply (Hno make). by right. }
  unfold applyDecision. destruct d' as [mk|]; cbn; [|done].
  rewrite lookup_insert_ne; [done|]. intros ->. apply (Hno mk). left.
Qed.


Lemma toArray0_order : toArrayOrder toArray0.
Proof. by intros n s. Qed.

Lemma toArray1_order : toArrayOrder toArray1.
Proof. intros n s. unfold toArray1. by rewrite reverse_Permutation. Qed.

Lemma range0_order : rangeOrder range0.
Proof. by intros m. Qed.

Lemma range1_order : rangeOrder range1.
Proof. intros m. unfold range1. by rewrite reverse_Permutation. Qed.

Lemma isFunAt_setClosure ir e cs q :
  isFunAt ir (foldl setClosure e cs) q ↔ isFunAt ir e q.
Proof.
  assert (newVal (foldl setClosure e cs) = newVal e) as E.
  { revert e. induction cs as [|c cs IH]; intros e; [done|]. cbn. by rewrite IH. }
  unfold isFunAt, curInsn. by rewrite E.
Qed.




Section RewriteFacts.

Variable rangeReplaced : gmap path (option MakeCls) → list (path * option MakeCls).
Hypothesis range_ok : rangeOrder rangeReplaced.

Lemma range_elem m q d : (q, d) ∈ rangeReplaced m ↔ m !! q = Some d.
Proof using range_ok. by rewrite (range_ok m), elem_of_map_to_list. Qed.

Lemma range_NoDup m : NoDup (rangeReplaced m).*1.
Proof using range_ok. rewrite (range_ok m). apply NoDup_fst_map_to_list. Qed.

(** The loop runs through when every decision targets a function literal,
    and then performs the writes of all its iterations ... *)
Lemma rewrite_Some ir t e :
  (∀ q d, replacedFuns t !! q = Some d → isFunAt ir e q) →
  rewrite rangeReplaced ir t e =
  Some (foldl (enterToplevel ir) ∅ (rangeReplaced (replacedFuns t)),
        foldl applyDecision (foldl setClosure e (closureCalls t))
              (rangeReplaced (replacedFuns t))).
Proof using range_ok.
  intros H. unfold rewrite. apply foldl_materialize_Some; [apply range_NoDup|].
  intros [q d] Hin%range_elem. apply isFunAt_setClosure. eauto.
Qed.

(** ... and panics otherwise. *)
Lemma rewrite_None ir t e :
  (∃ q d, replacedFuns t !! q = Some d ∧ ¬ isFunAt ir e q) →
  rewrite rangeReplaced ir t e = None.
Proof using range_ok.
  intros (q & d & Hq & Hno). unfold rewrite.
  apply foldl_materialize_None; [apply range_NoDup|].
  exists (q, d). split; [by apply range_elem|]. by rewrite isFunAt_setClosure.
Qed.

Lemma rewrite_panics_iff ir t e :
  rewrite rangeReplaced ir t e = None ↔
  ∃ q d, replacedFuns t !! q = Some d ∧ ¬ isFunAt ir e q.
Proof using range_ok.
  split; [|apply rewrite_None].
  intros Hnone.
  destruct (decide (Forall (λ d, isFunAt ir e d.1) (map_to_list (replacedFuns t))))
    as [Hall|Hex].
  - rewrite rewrite_Some in Hnone; [done|].
    intros q d Hq. rewrite Forall_forall in Hall.
    by apply (Hall (q, d)), elem_of_map_to_list.
  - apply not_Forall_Exists in Hex; [|apply _].
    apply Exists_exists in Hex as ([q d] & Hin%elem_of_map_to_list & Hno).
    eauto.
Qed.

End RewriteFacts.

(** ** The committed state of [Transform] *)

Section ClassifyFacts.

Variable toArray : nat → nameSet → list string.
Variable gatherFreeVars : Block → transformWithKFO → nameSet.
Variable gatherFreeVarsTillTheEnd : Block → transformWithKFO → nameSet.

Local Abbreviation classifyG := (classify toArray gatherFreeVars gatherFreeVarsTillTheEnd).

Lemma classify_knownFuns ir : knownFuns (classifyG ir) = ∅.
Proof. unfold classify, start. by rewrite explore_knownFuns. Qed.

Lemma classify_closureCalls ir : closureCalls (classifyG ir) = [].
Proof.
  unfold classify, start.
  destruct (explore_closureCalls toArray gatherFreeVars gatherFreeVarsTillTheEnd
              ir 0 emptyTrans [] 0) as (ext & -> & Hext & _).
  by rewrite Hext.
Qed.

Lemma classify_keys ir q d :
  replacedFuns (classifyG ir) !! q = Some d →
  ∃ ident params body, insnAt ir q = Some (ident, Fun params body).
Proof.
  intros H. unfold classify, start in H.
  destruct (explore_replacedFuns_keys toArray gatherFreeVars gatherFreeVarsTillTheEnd
              ir 0 emptyTrans [] 0 q) as [[? Hs]|(j & r & i & ps & b & -> & Hat)].
  - by eexists.
  - cbn in Hs. by rewrite lookup_empty in Hs.
  - exists i, ps, b. by cbn.
Qed.

Lemma classify_isFunAt ir q d :
  replacedFuns (classifyG ir) !! q = Some d → isFunAt ir noEdits q.
Proof.
  intros (i & ps & b & H)%classify_keys. exists i, ps, b.
  unfold curInsn. rewrite H. cbn. by rewrite lookup_empty.
Qed.

End ClassifyFacts.

(** ** Indirect-call marking *)

(** C1 (the code departs from the claim).  The committed known set stays
    empty and a call is recorded only when its callee is in the known set,
    so for every input and every run the committed list of closure calls is
    empty and no call is marked.  On [callsClosure] the call of the closure
    [f] keeps its flag at false. *)
Theorem C1_no_call_is_marked :
  (∀ toArray gatherFreeVars gatherFreeVarsTillTheEnd ir,
     closureCalls (classify toArray gatherFreeVars gatherFreeVarsTillTheEnd ir) = []) ∧
  TransformS toArray0 range0 callsClosure = Some callsClosure_out.
Proof.
  split.
  - intros. apply classify_closureCalls.
  - vm_compute. reflexivity.
Qed.

(** ** Running the rewriting phase twice *)






(** ** Fatal failures *)

Lemma Transform_runs toArray gatherFreeVars gatherFreeVarsTillTheEnd rangeReplaced ir :
  rangeOrder rangeReplaced →
  is_Some (Transform toArray gatherFreeVars gatherFreeVarsTillTheEnd rangeReplaced ir).
Proof.
  intros Hr. unfold Transform. rewrite rewrite_Some; [by eexists|done|].
  intros q d. apply classify_isFunAt.
Qed.

(** ** The free-variable analysis of the spec *)

Lemma freeVarsFrom_FreeIn K insn x :
  x ∈ freeVarsFrom K insn ↔ FreeIn x insn ∧ x ∉ K.
Proof.
  induction insn as [|ident val next IHbody IHnext] using Insn_graph_ind.
  { cbn. split; [set_solver|]. intros [H _]. inversion H. }
  cbn [freeVarsFrom]. rewrite elem_of_union, elem_of_difference, IHnext.
  rewrite elem_of_singleton.
  destruct val as [ops|params body|callee args cl|vars fn].
  - rewrite elem_of_difference, elem_of_list_to_set. split.
    + intros [[? ?]|[[? ?] ?]]; (split; [|done]).
      * by constructor.
      * by apply FreeIn_next.
    + intros [H HK]. inversion H; subst; [left|right]; done.
  - rewrite !elem_of_difference, elem_of_list_to_set, elem_of_singleton.
    rewrite (IHbody _ _ eq_refl). split.
    + intros [[[[? ?] ?] ?]|[[? ?] ?]]; (split; [|done]).
      * by apply FreeIn_fun.
      * by apply FreeIn_next.
    + intros [H HK]. inversion H; subst; [left|right]; done.
  - rewrite elem_of_difference, elem_of_list_to_set. split.
    + intros [[? ?]|[[? ?] ?]]; (split; [|done]).
      * by constructor.
      * by apply FreeIn_next.
    + intros [H HK]. inversion H; subst; [left|right]; done.
  - rewrite elem_of_difference, elem_of_list_to_set. split.
    + intros [[? ?]|[[? ?] ?]]; (split; [|done]).
      * by constructor.
      * by apply FreeIn_next.
    + intros [H HK]. inversion H; subst; [left|right]; done.
Qed.


Lemma size_zero_empty (s : nameSet) : size s = 0 ↔ s = ∅.
Proof. rewrite size_empty_iff. by unfold_leibniz. Qed.

(** ** Paths that differ *)

Lemma path_neq_index (p : path) k1 k2 r1 r2 :
  k1 ≠ k2 → p ++ k1 :: r1 ≠ p ++ k2 :: r2.
Proof. intros Hne Heq. apply app_inv_head in Heq. congruence. Qed.

Lemma path_neq_below (p : path) k r : r ≠ [] → p ++ [k] ≠ p ++ k :: r.
Proof. intros Hne Heq. apply app_inv_head in Heq. congruence. Qed.

(** ** [explore] under the analysis of the spec *)

Section SpecFacts.

Variable toArray : nat → nameSet → list string.

Local Abbreviation exploreS := (explore toArray freeVars freeVarsFromPoint).
Local Abbreviation settleS := (settle toArray freeVars freeVarsFromPoint).
Local Abbreviation hypothesisS := (hypothesis toArray freeVars freeVarsFromPoint).

Lemma test_spec n t self ident body :
  freeVars body (hypothesisS n t self ident body).1 =
  freeVarsFrom ({[ident]} ∪ knownFuns t) body.
Proof. unfold freeVars, freeVarsFromPoint. by rewrite hypothesis_knownFuns. Qed.

Lemma settleS_known n t self ident params body :
  size (freeVarsFrom ({[ident]} ∪ knownFuns t) body ∖ list_to_set params) = 0 →
  settleS n t self ident params body = (t, (hypothesisS n t self ident body).2).
Proof.
  intros H. unfold settle. rewrite test_spec. by case_decide.
Qed.

Lemma settleS_closure n t self ident params body :
  size (freeVarsFrom ({[ident]} ∪ knownFuns t) body ∖ list_to_set params) ≠ 0 →
  ∃ n1 m, settleS n t self ident params body =
    (set_closures
       (insert ident (toArray m (freeVarsFrom (knownFuns t) body ∖ list_to_set params)))
       (exploreS n1 t self 0 body).1, S m).
Proof.
  intros H. unfold settle. rewrite test_spec. case_decide; [|done].
  eexists _, _. unfold freeVars, freeVarsFromPoint.
  by rewrite explore_knownFuns.
Qed.

(** Below a function whose hypothesis holds, [explore] records nothing. *)
Lemma known_body_untouched insn :
  ∀ n t p k j r ident params body r',
    insnAt insn (j :: r) = Some (ident, Fun params body) →
    size (freeVarsFrom ({[ident]} ∪ knownFuns t) body ∖ list_to_set params) = 0 →
    r' ≠ [] →
    replacedFuns (exploreS n t p k insn).1 !! (p ++ (k + j) :: r ++ r') =
    replacedFuns t !! (p ++ (k + j) :: r ++ r').
Proof.
  induction insn as [|ident0 val next IHbody IHnext] using Insn_graph_ind;
    intros n t p k j r ident params body r' Hat Htest Hr'; [done|].
  destruct j as [|j].
  - (* the function is the head instruction, or lies in its body *)
    rewrite Nat.add_0_r.
    assert (∃ ps0 body0, val = Fun ps0 body0) as (ps0 & body0 & ->).
    { destruct r; cbn in Hat; [injection Hat as -> ->; eauto|].
      destruct val; try done. eauto. }
    rewrite explore_Fun. cbn [fst snd]. rewrite replacedFuns_record.
    rewrite lookup_insert_ne.
    2:{ apply path_neq_below. by destruct r. }
    rewrite explore_replacedFuns_frame.
    2:{ intros j' r''. apply path_neq_index. lia. }
    destruct r as [|j2 r2].
    + cbn in Hat. injection Hat as -> -> ->. by rewrite settleS_known.
    + rewrite insnAt_body in Hat.
      destruct (decide (size (freeVarsFrom ({[ident0]} ∪ knownFuns t) body0
                                ∖ list_to_set ps0) = 0)) as [H0|H0].
      * by rewrite settleS_known.
      * destruct (settleS_closure n t (p ++ [k]) ident0 ps0 body0 H0)
          as (n1 & m & ->). cbn [fst snd replacedFuns set_closures].
        pose proof (IHbody _ _ eq_refl n1 t (p ++ [k]) 0 j2 r2 ident params body r'
                           Hat Htest Hr') as IH.
        by rewrite Nat.add_0_l, <- app_assoc in IH.
  - (* the function comes later in the block *)
    rewrite insnAt_next in Hat.
    assert (∀ n' t', knownFuns t' = knownFuns t →
      replacedFuns (exploreS n' t' p (S k) next).1 !! (p ++ (k + S j) :: r ++ r') =
      replacedFuns t' !! (p ++ (k + S j) :: r ++ r')) as Hshift.
    { intros n' t' HK. rewrite <- Nat.add_succ_comm.
      apply (IHnext n' t' p (S k) j r ident params body r'); [done| |done].
      by rewrite HK. }
    destruct val as [ops|ps0 body0|callee args cl|vars fn].
    + by apply Hshift.
    + rewrite explore_Fun. cbn [fst snd]. rewrite replacedFuns_record.
      rewrite lookup_insert_ne.
      2:{ apply path_neq_index. lia. }
      rewrite Hshift by apply settle_knownFuns.
      unfold settle. case_decide; cbn [fst snd]; [|done].
      cbn [replacedFuns set_closures].
      apply explore_replacedFuns_frame. intros j' r''.
      rewrite <- app_assoc. apply path_neq_index. lia.
    + rewrite explore_App, Hshift; by case_decide.
    + by apply Hshift.
Qed.

End SpecFacts.

(** ** Functions confirmed known *)

(** C10.  When the hypothesis that a function literal is known holds (its
    body has no free variable left once its own name is in the known set
    and its parameters are removed), the committed state keeps nothing of
    the exploration: the name is not in the committed known set, no
    decision and no call record is committed for an instruction inside the
    body, and after the rewriting no instruction inside the body is
    removed or replaced. *)
Theorem C10_known_body_untouched toArray rangeReplaced ir q ident params body :
  rangeOrder rangeReplaced →
  insnAt ir q = Some (ident, Fun params body) →
  size (freeVars body (assumeKnown ident (classifyS toArray ir))
          ∖ list_to_set params) = 0 →
  ident ∉ knownFuns (classifyS toArray ir) ∧
  (∀ r, r ≠ [] → replacedFuns (classifyS toArray ir) !! (q ++ r) = None) ∧
  (∀ r, q ++ r ∉ closureCalls (classifyS toArray ir)) ∧
  ∃ r1, rewrite rangeReplaced ir (classifyS toArray ir) noEdits = Some r1 ∧
        ∀ r, r ≠ [] → q ++ r ∉ removed r1.2 ∧ newVal r1.2 !! (q ++ r) = None.
Proof.
  intros Hr Hat Htest.
  assert (∀ r, r ≠ [] → replacedFuns (classifyS toArray ir) !! (q ++ r) = None)
    as Hbelow.
  { intros r Hne. destruct q as [|j q]; [done|].
    unfold classifyS, classify, start.
    pose proof (known_body_untouched toArray ir 0 emptyTrans [] 0 j q
                  ident params body r Hat) as H.
    cbn [app Nat.add] in H |- *. rewrite H; [done| |done].
    unfold freeVars, freeVarsFromPoint, assumeKnown in Htest. cbn in Htest.
    unfold classifyS in Htest. rewrite classify_knownFuns in Htest.
    by cbn. }
  split_and!.
  - unfold classifyS. rewrite classify_knownFuns. set_solver.
  - done.
  - intros r. unfold classifyS. rewrite classify_closureCalls. set_solver.
  - rewrite rewrite_Some; [|done|apply classify_isFunAt].
    eexists. split; [done|]. intros r Hne. cbn [snd]. split.
    + rewrite foldl_applyDecision_removed, range_elem by done.
      rewrite Hbelow by done. unfold classifyS.
      rewrite classify_closureCalls. cbn. set_solver.
    + rewrite foldl_applyDecision_newVal_other.
      * unfold classifyS. by rewrite classify_closureCalls.
      * intros make Hin%range_elem; [|done]. by rewrite Hbelow in Hin.
Qed.

Lemma C10_known_body_untouched_witness :
  "f"%string ∉ knownFuns (classifyS toArray0 nestedInKnown) ∧
  (∀ r, r ≠ [] → replacedFuns (classifyS toArray0 nestedInKnown) !! ([0] ++ r) = None) ∧
  (∀ r, [0] ++ r ∉ closureCalls (classifyS toArray0 nestedInKnown)) ∧
  ∃ r1, rewrite range0 nestedInKnown (classifyS toArray0 nestedInKnown) noEdits = Some r1 ∧
        ∀ r, r ≠ [] → [0] ++ r ∉ removed r1.2 ∧ newVal r1.2 !! ([0] ++ r) = None.
Proof.
  apply (C10_known_body_untouched toArray0 range0 nestedInKnown [0] "f"%string
           ["x"%string]
           (mkInsn "g"%string (Fun ["y"%string]
                                   (mkInsn "s"%string (Prim ["y"%string]) Bottom))
              (mkInsn "r"%string (App "g"%string ["x"%string] false) Bottom))).
  - exact range0_order.
  - reflexivity.
  - vm_compute. reflexivity.
Defined.

(** ** Materialisation of nested functions *)

(** C4 (the code departs from the claim).  On [nestedInKnown] the function
    [g] is defined inside [f] and its name is read by the call that follows
    it, yet no decision is committed for it: in the program returned, its
    literal is still an instruction of the body of [f], and it is not in
    the top-level table. *)
Theorem C4_nested_literal_left_in_place :
  FreeIn "g"%string (after 0 (mkInsn "g"%string (Fun ["y"%string]
                                (mkInsn "s"%string (Prim ["y"%string]) Bottom))
              (mkInsn "r"%string (App "g"%string ["x"%string] false) Bottom))) ∧
  replacedFuns (classifyS toArray0 nestedInKnown) !! [0; 0] = None ∧
  TransformS toArray0 range0 nestedInKnown = Some nestedInKnown_out.
Proof.
  split_and!.
  - cbn. apply FreeIn_app. left.
  - vm_compute. reflexivity.
  - vm_compute. reflexivity.
Qed.

(** ** Capture lists *)

Section CaptureFacts.

Variable toArray : nat → nameSet → list string.

Local Abbreviation exploreC := (explore toArray freeVars freeVarsFromPoint).

(** An entry of the closures mapping is the enumeration of the free
    variables of the body of a function of that name, parameters removed,
    under the known set of the state. *)
Lemma explore_closures_spec insn :
  ∀ n t p k f vars,
    closures (exploreC n t p k insn).1 !! f = Some vars →
    closures t !! f = Some vars ∨
    ∃ j r params body m,
      insnAt insn (j :: r) = Some (f, Fun params body) ∧
      vars = toArray m (freeVarsFrom (knownFuns t) body ∖ list_to_set params).
Proof.
  induction insn as [|ident val next IHbody IHnext] using Insn_graph_ind;
    intros n t p k f vars; [by left|].
  assert (Hshift : ∀ n' t', knownFuns t' = knownFuns t →
    closures (exploreC n' t' p (S k) next).1 !! f = Some vars →
    closures t' !! f = Some vars ∨
    ∃ j r params body m,
      insnAt (mkInsn ident val next) (j :: r) = Some (f, Fun params body) ∧
      vars = toArray m (freeVarsFrom (knownFuns t) body ∖ list_to_set params)).
  { intros n' t' HK H.
    destruct (IHnext _ _ _ _ _ _ H) as [?|(j & r & ps & b & m & Hat & ->)];
      [by left|right].
    exists (S j), r, ps, b, m. by rewrite HK. }
  destruct val as [ops|params body|callee args cl|vars0 fn].
  - by apply Hshift.
  - rewrite explore_Fun. cbn [fst snd]. rewrite closures_record. intros H.
    destruct (Hshift _ _ (settle_knownFuns _ _ _ _ _ _ _ _ _) H) as [H'|?];
      [|by right].
    destruct (decide (size (freeVarsFrom ({[ident]} ∪ knownFuns t) body
                              ∖ list_to_set params) = 0)) as [H0|H0].
    + rewrite settleS_known in H' by done. by left.
    + destruct (settleS_closure toArray n t (p ++ [k]) ident params body H0)
        as (n1 & m & E). rewrite E in H'. cbn in H'.
      destruct (decide (ident = f)) as [->|Hne].
      * rewrite lookup_insert_eq in H'. injection H' as <-. right.
        by exists 0, [], params, body, m.
      * rewrite lookup_insert_ne in H' by done.
        destruct (IHbody _ _ eq_refl _ _ _ _ _ _ H')
          as [?|(j & r & ps & b & m' & Hat & ->)]; [by left|right].
        by exists 0, (j :: r), ps, b, m'.
  - rewrite explore_App. intros H.
    destruct (Hshift n (if decide (callee ∈ knownFuns t)
                        then set_closureCalls (λ cs, cs ++ [p ++ [k]]) t else t))
      as [H'|?]; [by case_decide|done| |by right].
    left. revert H'. by case_decide.
  - by apply Hshift.
Qed.

Lemma classify_closures_spec ir f vars :
  closures (classifyS toArray ir) !! f = Some vars →
  ∃ q params body m,
    insnAt ir q = Some (f, Fun params body) ∧
    vars = toArray m (freeVarsFrom ∅ body ∖ list_to_set params).
Proof.
  intros H. unfold classifyS, classify, start in H.
  destruct (explore_closures_spec _ _ _ _ _ _ _ H)
    as [H'|(j & r & ps & b & m & Hat & ->)].
  - cbn in H'. by rewrite lookup_empty in H'.
  - by exists (j :: r), ps, b, m.
Qed.

End CaptureFacts.

(** ** Function names *)

Lemma insnAt_funNames ir :
  ∀ q f params body, insnAt ir q = Some (f, Fun params body) → f ∈ funNames ir.
Proof.
  induction ir as [|ident val next IHbody IHnext] using Insn_graph_ind;
    intros q f params body Hat.
  { by rewrite insnAt_Bottom in Hat. }
  destruct q as [|[|j] r]; [done|..]; cbn [funNames].
  - destruct r as [|j2 r2].
    + cbn in Hat. injection Hat as -> ->. set_solver.
    + destruct val as [?|ps0 body0|? ? ?|? ?]; try done.
      rewrite insnAt_body in Hat.
      apply elem_of_app. left. right. by eapply (IHbody _ _ eq_refl).
  - rewrite insnAt_next in Hat. apply elem_of_app. right. by eapply IHnext.
Qed.

(** With pairwise distinct function names, a name determines the
    instruction. *)
Lemma funNames_unique ir :
  NoDup (funNames ir) →
  ∀ q1 q2 f ps1 b1 ps2 b2,
    insnAt ir q1 = Some (f, Fun ps1 b1) →
    insnAt ir q2 = Some (f, Fun ps2 b2) →
    q1 = q2.
Proof.
  induction ir as [|ident val next IHbody IHnext] using Insn_graph_ind;
    intros Hnd q1 q2 f ps1 b1 ps2 b2 H1 H2.
  { by rewrite insnAt_Bottom in H1. }
  cbn [funNames] in Hnd. apply NoDup_app in Hnd as (Hhere & Hdisj & Hnext).
  assert (∀ r ps b, insnAt (mkInsn ident val next) (0 :: r) = Some (f, Fun ps b) →
            f ∈ match val with Fun _ body => ident :: funNames body | _ => [] end)
    as Hin0.
  { intros r ps b H. destruct r as [|j2 r2].
    - cbn in H. injection H as -> ->. left.
    - destruct val as [?|ps0 body0|? ? ?|? ?]; try done.
      rewrite insnAt_body in H. right. by eapply insnAt_funNames. }
  destruct q1 as [|[|j1] r1]; [done|..]; destruct q2 as [|[|j2] r2]; try done.
  - (* both at the head instruction or in its body *)
    destruct r1 as [|i1 r1]; destruct r2 as [|i2 r2]; [done|..].
    + cbn in H1. injection H1 as -> ->. rewrite insnAt_body in H2.
      apply insnAt_funNames in H2. by apply NoDup_cons in Hhere as [? _].
    + cbn in H2. injection H2 as -> ->. rewrite insnAt_body in H1.
      apply insnAt_funNames in H1. by apply NoDup_cons in Hhere as [? _].
    + destruct val as [?|ps0 body0|? ? ?|? ?]; try done.
      rewrite insnAt_body in H1, H2. apply NoDup_cons in Hhere as [_ Hb].
      f_equal. by eapply (IHbody _ _ eq_refl).
  - rewrite insnAt_next in H2. apply insnAt_funNames in H2.
    destruct (Hdisj f); [by eapply Hin0|done].
  - rewrite insnAt_next in H1. apply insnAt_funNames in H1.
    destruct (Hdisj f); [by eapply Hin0|done].
  - rewrite insnAt_next in H1, H2.
    assert (j1 :: r1 = j2 :: r2) as E by by eapply IHnext.
    by injection E as -> ->.
Qed.



(** ** Self-recursive functions *)

(** C5.  A function whose body reads its own name and otherwise only
    parameters, locally bound identifiers and known functions is taken as
    known: the hypothesis is tested with its name in the known set, the test
    finds no free variable, the committed state is left as it was (no
    retry, no entry in the closures mapping), and the closures mapping after
    the block is the one obtained from the rest of the block alone. *)
Theorem C5_self_recursive_known toArray n t p k ident params body next :
  FreeIn ident body →
  (∀ x, FreeIn x body → x = ident ∨ x ∈ params ∨ x ∈ knownFuns t) →
  ident ∈ knownFuns
    (hypothesis toArray freeVars freeVarsFromPoint n t (p ++ [k]) ident body).1 ∧
  confirmedKnown toArray freeVars freeVarsFromPoint n t (p ++ [k]) ident params body ∧
  (settle toArray freeVars freeVarsFromPoint n t (p ++ [k]) ident params body).1 = t ∧
  closures (explore toArray freeVars freeVarsFromPoint n t p k
              (mkInsn ident (Fun params body) next)).1 =
  closures (explore toArray freeVars freeVarsFromPoint
              (hypothesis toArray freeVars freeVarsFromPoint
                          n t (p ++ [k]) ident body).2 t p (S k) next).1.
Proof.
  intros _ Hfree.
  assert (size (freeVarsFrom ({[ident]} ∪ knownFuns t) body ∖ list_to_set params) = 0)
    as Htest.
  { apply size_zero_empty, set_eq. intros x.
    rewrite elem_of_difference, freeVarsFrom_FreeIn, elem_of_list_to_set.
    split; [|set_solver]. intros [[HF HK] Hp].
    destruct (Hfree x HF) as [->|[?|?]]; set_solver. }
  split_and!.
  - rewrite hypothesis_knownFuns. set_solver.
  - unfold confirmedKnown. by rewrite test_spec.
  - by rewrite settleS_known.
  - rewrite explore_Fun. cbn [fst snd]. rewrite closures_record.
    by rewrite settleS_known.
Qed.

Lemma C5_self_recursive_known_witness :
  let body := mkInsn "r"%string (App "f"%string ["x"%string] false) Bottom in
  let next := mkInsn "u"%string (Prim []) Bottom in
  "f"%string ∈ knownFuns
    (hypothesis toArray0 freeVars freeVarsFromPoint 0 emptyTrans ([] ++ [0])
                "f"%string body).1 ∧
  confirmedKnown toArray0 freeVars freeVarsFromPoint 0 emptyTrans ([] ++ [0])
                 "f"%string ["x"%string] body ∧
  (settle toArray0 freeVars freeVarsFromPoint 0 emptyTrans ([] ++ [0])
          "f"%string ["x"%string] body).1 = emptyTrans ∧
  closures (explore toArray0 freeVars freeVarsFromPoint 0 emptyTrans [] 0
              (mkInsn "f"%string (Fun ["x"%string] body) next)).1 =
  closures (explore toArray0 freeVars freeVarsFromPoint
              (hypothesis toArray0 freeVars freeVarsFromPoint
                          0 emptyTrans ([] ++ [0]) "f"%string body).2
              emptyTrans [] 1 next).1.
Proof.
  intros body next.
  apply (C5_self_recursive_known toArray0 0 emptyTrans [] 0 "f"%string
           ["x"%string] body next).
  - apply FreeIn_app. left.
  - intros x HF. inversion HF as [| ? ? ? ? ? Hin | | |? ? ? HB]; subst.
    + apply elem_of_cons in Hin as [->|Hin]; [by left|right; left; done].
    + inversion HB.
Defined.

(** ** Known functions and the final state *)

(** C2 (the code departs from the claim).  On [selfRecursive] the function
    [f] is not entered into the closures mapping, but its name is not in
    the known set of the final state either, so under the final state the
    body of [f] still has the free variable [f]. *)
Theorem C2_known_function_free_in_final_state :
  closures (classifyS toArray0 selfRecursive) !! "f"%string = None ∧
  knownFuns (classifyS toArray0 selfRecursive) = ∅ ∧
  freeVars (mkInsn "r"%string (App "f"%string ["x"%string] false) Bottom)
           (classifyS toArray0 selfRecursive) ∖ list_to_set ["x"%string]
  = {["f"%string]}.
Proof. split_and!; vm_compute; reflexivity. Qed.

(** ** Two runs on the same graph *)

(** C7, as stated, fails: on [capturesTwo] the function [f] captures [z]
    and [w]; a run that enumerates the set as [w; z] and a run that
    enumerates it as [z; w] return different programs. *)
Lemma C7_counterexample : ¬ Deterministic capturesTwo.
Proof.
  intros H.
  specialize (H toArray0 toArray1 range0 range0
                toArray0_order toArray1_order range0_order range0_order).
  assert (E := f_equal (λ o, o ≫= λ prog, Closures prog !! "f"%string) H).
  vm_compute in E. discriminate E.
Qed.

Lemma canonList_order (l : list string) (s : nameSet) :
  l ≡ₚ elements s → canonList l = elements s.
Proof.
  intros H. unfold canonList. f_equal. apply set_eq. intros x.
  by rewrite elem_of_list_to_set, H, elem_of_elements.
Qed.

Lemma canonTrans_knownFuns t1 t2 :
  canonTrans t1 = canonTrans t2 → knownFuns t1 = knownFuns t2.
Proof. intros H. by apply (f_equal knownFuns) in H. Qed.

Lemma canonTrans_closures t1 t2 f :
  canonTrans t1 = canonTrans t2 →
  canonList <$> closures t1 !! f = canonList <$> closures t2 !! f.
Proof.
  intros H. apply (f_equal closures) in H. cbn in H.
  by rewrite <- !lookup_fmap, H.
Qed.

Lemma canonTrans_set_closureCalls g t1 t2 :
  canonTrans t1 = canonTrans t2 →
  canonTrans (set_closureCalls g t1) = canonTrans (set_closureCalls g t2).
Proof.
  intros H. unfold canonTrans in *. cbn. injection H as H1 H2 H3 H4 H5.
  by rewrite H1, H2, H3, H4, H5.
Qed.

Lemma canonTrans_set_closures ident l1 l2 t1 t2 :
  canonList l1 = canonList l2 →
  canonTrans t1 = canonTrans t2 →
  canonTrans (set_closures (insert ident l1) t1) =
  canonTrans (set_closures (insert ident l2) t2).
Proof.
  intros Hl H. unfold canonTrans in *. cbn. injection H as H1 H2 H3 H4 H5.
  by rewrite !fmap_insert, H1, H2, H3, H4, H5, Hl.
Qed.

Lemma canonTrans_record self ident next t1 t2 :
  canonTrans t1 = canonTrans t2 →
  canonTrans (recordDecision freeVarsFromPoint self ident next t1) =
  canonTrans (recordDecision freeVarsFromPoint self ident next t2).
Proof.
  intros H. pose proof (canonTrans_knownFuns _ _ H) as HK.
  pose proof (canonTrans_closures _ _ ident H) as HC.
  unfold canonTrans in *. injection H as H1 H2 H3 H4 H5.
  unfold recordDecision, freeVarsFromPoint. cbn. rewrite !fmap_insert.
  rewrite H1, H2, H3, H4, H5. f_equal. f_equal.
  case_decide; [|done]. cbn. unfold canonMakeCls. cbn. do 2 f_equal.
  destruct (closures t1 !! ident), (closures t2 !! ident); cbn in *; congruence.
Qed.

Section TwoRuns.

Variable toArrayA toArrayB : nat → nameSet → list string.
Hypothesis orderA : toArrayOrder toArrayA.
Hypothesis orderB : toArrayOrder toArrayB.

Local Abbreviation exploreA := (explore toArrayA freeVars freeVarsFromPoint).
Local Abbreviation exploreB := (explore toArrayB freeVars freeVarsFromPoint).

(** The two runs take the same decisions; capture lists agree up to their
    order. *)
Lemma explore_canon insn :
  ∀ n1 n2 t1 t2 p k, canonTrans t1 = canonTrans t2 →
    canonTrans (exploreA n1 t1 p k insn).1 = canonTrans (exploreB n2 t2 p k insn).1.
Proof using orderA orderB.
  induction insn as [|ident val next IHbody IHnext] using Insn_graph_ind;
    intros n1 n2 t1 t2 p k H; [done|].
  pose proof (canonTrans_knownFuns _ _ H) as HK.
  destruct val as [ops|params body|callee args cl|vars fn].
  - by apply IHnext.
  - rewrite !explore_Fun. cbn [fst snd]. apply canonTrans_record, IHnext.
    destruct (decide (size (freeVarsFrom ({[ident]} ∪ knownFuns t1) body
                              ∖ list_to_set params) = 0)) as [H0|H0].
    + rewrite settleS_known by done. rewrite HK in H0.
      by rewrite settleS_known by done.
    + destruct (settleS_closure toArrayA n1 t1 (p ++ [k]) ident params body H0)
        as (m1 & i1 & ->). rewrite HK in H0.
      destruct (settleS_closure toArrayB n2 t2 (p ++ [k]) ident params body H0)
        as (m2 & i2 & ->). cbn [fst].
      apply canonTrans_set_closures; [|by apply (IHbody _ _ eq_refl)].
      rewrite (canonList_order _ _ (orderA _ _)), (canonList_order _ _ (orderB _ _)).
      by rewrite HK.
  - rewrite !explore_App. apply IHnext. rewrite HK.
    case_decide; [|done]. by apply canonTrans_set_closureCalls.
  - by apply IHnext.
Qed.

Lemma classify_canon ir :
  canonTrans (classifyS toArrayA ir) = canonTrans (classifyS toArrayB ir).
Proof using orderA orderB. by apply explore_canon. Qed.

End TwoRuns.

(** The top-level table built by the loop: with distinct names among the
    decided instructions, it maps each name to the instruction of that
    name, in whatever order the entries are met. *)
Lemma foldl_enterToplevel_lookup ir ds :
  (∀ q1 q2, q1 ∈ ds.*1 → q2 ∈ ds.*1 → nameOf ir q1 = nameOf ir q2 → q1 = q2) →
  ∀ name q, foldl (enterToplevel ir) ∅ ds !! name = Some q ↔
            q ∈ ds.*1 ∧ nameOf ir q = name.
Proof.
  induction ds as [|[q' d'] ds IH] using rev_ind; intros Hinj name q.
  { cbn. rewrite lookup_empty, elem_of_nil. naive_solver. }
  rewrite foldl_app, fmap_app, elem_of_app. cbn [foldl fmap list_fmap].
  unfold enterToplevel at 1. cbn [fst].
  assert (∀ q1 q2, q1 ∈ ds.*1 → q2 ∈ ds.*1 →
            nameOf ir q1 = nameOf ir q2 → q1 = q2) as Hinj'.
  { intros q1 q2 H1 H2. apply Hinj; rewrite fmap_app, elem_of_app; by left. }
  rewrite list_elem_of_singleton.
  destruct (decide (nameOf ir q' = name)) as [<-|Hne].
  - rewrite lookup_insert_eq. split.
    + intros [= <-]. split; [by right|done].
    + intros [[Hin| ->] Hname]; [|done]. f_equal. symmetry.
      apply Hinj; [|rewrite fmap_app, elem_of_app; right; cbn; left|done].
      rewrite fmap_app, elem_of_app. by left.
  - rewrite lookup_insert_ne by done. rewrite IH by done. naive_solver.
Qed.

Lemma option_eq_Some_iff {A} (o1 o2 : option A) :
  (∀ a, o1 = Some a ↔ o2 = Some a) → o1 = o2.
Proof.
  intros H. destruct o1 as [a|], o2 as [b|]; [| | |done].
  - symmetry. by apply H.
  - symmetry. by apply (H a).
  - by apply (H b).
Qed.

Lemma view_canon e1 e2 insn :
  canonEdits e1 = canonEdits e2 →
  ∀ p k, canonInsn (view e1 p k insn) = canonInsn (view e2 p k insn).
Proof.
  intros H. injection H as Hc Hn Hr.
  assert (∀ q, canonMakeCls <$> newVal e1 !! q = canonMakeCls <$> newVal e2 !! q)
    as Hnv.
  { intros q. by rewrite <- !lookup_fmap, Hn. }
  induction insn as [|ident val next IHbody IHnext] using Insn_graph_ind;
    intros p k; [done|].
  cbn [view]. rewrite Hr. case_decide; [apply IHnext|].
  cbn [canonInsn]. rewrite IHnext. f_equal.
  specialize (Hnv (p ++ [k])).
  destruct (newVal e1 !! (p ++ [k])) as [mk1|], (newVal e2 !! (p ++ [k])) as [mk2|];
    cbn in Hnv; try done.
  - injection Hnv as Hv Hf. by rewrite Hv, Hf.
  - destruct val as [ops|params body|callee args cl|vars fn]; try done.
    + by rewrite (IHbody _ _ eq_refl).
    + by rewrite Hc.
Qed.

Section TwoPrograms.

Variable toArrayA toArrayB : nat → nameSet → list string.
Variable rangeA rangeB : gmap path (option MakeCls) → list (path * option MakeCls).
Hypothesis orderA : toArrayOrder toArrayA.
Hypothesis orderB : toArrayOrder toArrayB.
Hypothesis rorderA : rangeOrder rangeA.
Hypothesis rorderB : rangeOrder rangeB.

Lemma decisions_canon ir q :
  fmap (M:=option) canonMakeCls <$> replacedFuns (classifyS toArrayA ir) !! q =
  fmap (M:=option) canonMakeCls <$> replacedFuns (classifyS toArrayB ir) !! q.
Proof using orderA orderB.
  pose proof (classify_canon toArrayA toArrayB orderA orderB ir) as H.
  apply (f_equal replacedFuns) in H. cbn in H. by rewrite <- !lookup_fmap, H.
Qed.

Lemma edits_canon ir :
  canonEdits (foldl applyDecision
                (foldl setClosure noEdits (closureCalls (classifyS toArrayA ir)))
                (rangeA (replacedFuns (classifyS toArrayA ir)))) =
  canonEdits (foldl applyDecision
                (foldl setClosure noEdits (closureCalls (classifyS toArrayB ir)))
                (rangeB (replacedFuns (classifyS toArrayB ir)))).
Proof using orderA orderB rorderA rorderB.
  unfold classifyS. rewrite !classify_closureCalls. cbn [foldl].
  fold (classifyS toArrayA ir) (classifyS toArrayB ir).
  unfold canonEdits. f_equal.
  - by rewrite !foldl_applyDecision_closureSet.
  - apply map_eq. intros q. rewrite !lookup_fmap.
    pose proof (decisions_canon ir q) as Hq.
    destruct (replacedFuns (classifyS toArrayA ir) !! q) as [[mk1|]|] eqn:E1;
      destruct (replacedFuns (classifyS toArrayB ir) !! q) as [[mk2|]|] eqn:E2;
      cbn in Hq; try done.
    + rewrite (foldl_applyDecision_newVal_Some _ (range_NoDup _ rorderA _) _ q mk1)
        by by apply range_elem.
      rewrite (foldl_applyDecision_newVal_Some _ (range_NoDup _ rorderB _) _ q mk2)
        by by apply range_elem.
      cbn. congruence.
    + by rewrite !foldl_applyDecision_newVal_other
        by (intros mk Hin; apply range_elem in Hin; [congruence|done]).
    + by rewrite !foldl_applyDecision_newVal_other
        by (intros mk Hin; apply range_elem in Hin; [congruence|done]).
  - apply set_eq. intros q. rewrite !foldl_applyDecision_removed.
    rewrite !range_elem by done.
    pose proof (decisions_canon ir q) as Hq.
    destruct (replacedFuns (classifyS toArrayA ir) !! q) as [[mk1|]|];
      destruct (replacedFuns (classifyS toArrayB ir) !! q) as [[mk2|]|];
      cbn in Hq; try done; naive_solver.
Qed.

Lemma toplevel_same ir :
  NoDup (funNames ir) →
  foldl (enterToplevel ir) ∅ (rangeA (replacedFuns (classifyS toArrayA ir))) =
  foldl (enterToplevel ir) ∅ (rangeB (replacedFuns (classifyS toArrayB ir))).
Proof using orderA orderB rorderA rorderB.
  intros Hnd.
  assert (∀ toArray range, rangeOrder range → ∀ q,
            q ∈ (range (replacedFuns (classifyS toArray ir))).*1 ↔
            is_Some (replacedFuns (classifyS toArray ir) !! q)) as Hkeys.
  { intros toArray range Hr q. rewrite list_elem_of_fmap. split.
    - intros ([q' d] & -> & Hin%range_elem); [|done]. by eexists.
    - intros [d Hd]. exists (q, d). split; [done|]. by apply range_elem. }
  assert (∀ toArray range, rangeOrder range → ∀ q1 q2,
            q1 ∈ (range (replacedFuns (classifyS toArray ir))).*1 →
            q2 ∈ (range (replacedFuns (classifyS toArray ir))).*1 →
            nameOf ir q1 = nameOf ir q2 → q1 = q2) as Hinj.
  { intros toArray range Hr q1 q2 [d1 H1]%Hkeys [d2 H2]%Hkeys; [|done..].
    apply classify_keys in H1 as (i1 & ps1 & b1 & H1).
    apply classify_keys in H2 as (i2 & ps2 & b2 & H2).
    unfold nameOf. rewrite H1, H2. intros <-.
    by eapply funNames_unique. }
  apply map_eq. intros name. apply option_eq_Some_iff. intros q.
  rewrite !foldl_enterToplevel_lookup by by apply Hinj.
  rewrite !Hkeys by done.
  pose proof (decisions_canon ir q) as Hq.
  destruct (replacedFuns (classifyS toArrayA ir) !! q),
           (replacedFuns (classifyS toArrayB ir) !! q); cbn in Hq; try done.
  split; intros [_ ?]; (split; [by eexists|done]).
Qed.

End TwoPrograms.

(** With two functions of the same name, the entry of the top-level table
    for that name is the one the loop meets last. *)
Lemma same_name_depends_on_range :
  TransformS toArray0 range0 sameNames ≠ TransformS toArray0 range1 sameNames.
Proof.
  intros H.
  assert (E := f_equal (λ o, o ≫= λ prog, Toplevel prog !! "f"%string) H).
  vm_compute in E. discriminate E.
Qed.

Lemma capture_list_NoDup toArray ir f vars :
  toArrayOrder toArray →
  closures (classifyS toArray ir) !! f = Some vars → NoDup vars.
Proof.
  intros Hord (q & ps & b & m & _ & ->)%classify_closures_spec.
  rewrite (Hord m _). apply NoDup_elements.
Qed.

(** C7 (amended).  On a graph whose function names are pairwise distinct,
    two runs of [Transform] both return a program, and the two programs are
    equal once the order of every capture list is forgotten; each recorded
    capture list is free of duplicates, and the lists recorded for a
    closure by the two runs are permutations of each other. *)
Theorem C7_deterministic_up_to_capture_order toArrayA toArrayB rangeA rangeB ir :
  toArrayOrder toArrayA → toArrayOrder toArrayB →
  rangeOrder rangeA → rangeOrder rangeB →
  NoDup (funNames ir) →
  ∃ progA progB,
    TransformS toArrayA rangeA ir = Some progA ∧
    TransformS toArrayB rangeB ir = Some progB ∧
    canonProgram progA = canonProgram progB ∧
    (∀ f vars, Closures progA !! f = Some vars → NoDup vars) ∧
    (∀ f varsA varsB, Closures progA !! f = Some varsA →
                      Closures progB !! f = Some varsB → varsA ≡ₚ varsB).
Proof.
  intros HA HB HrA HrB Hnd. unfold TransformS, Transform.
  fold (classifyS toArrayA ir) (classifyS toArrayB ir).
  rewrite !rewrite_Some by (done || apply classify_isFunAt).
  eexists _, _. split_and!; [done|done|..].
  - unfold readProgram, canonProgram. cbn [Toplevel Closures Entry fst snd].
    pose proof (edits_canon toArrayA toArrayB rangeA rangeB HA HB HrA HrB ir) as He.
    f_equal.
    + rewrite (toplevel_same toArrayA toArrayB rangeA rangeB HA HB HrA HrB ir Hnd).
      apply map_eq. intros name. rewrite !lookup_fmap, !lookup_omap.
      destruct (foldl _ _ _ !! name) as [q|]; [|done]. cbn. unfold viewFun.
      destruct (insnAt ir q) as [[ident [?|ps body|? ? ?|? ?]]|]; try done.
      cbn. by rewrite (view_canon _ _ _ He).
    + exact (f_equal closures (classify_canon toArrayA toArrayB HA HB ir)).
    + exact (view_canon _ _ _ He _ _).
  - cbn. intros f vars. by apply capture_list_NoDup.
  - cbn [Closures readProgram]. intros f varsA varsB HcA HcB.
    pose proof (canonTrans_closures _ _ f (classify_canon toArrayA toArrayB HA HB ir))
      as H.
    rewrite HcA, HcB in H. cbn in H. injection H as H.
    apply NoDup_Permutation.
    + by apply (capture_list_NoDup toArrayA ir f).
    + by apply (capture_list_NoDup toArrayB ir f).
    + intros x. unfold canonList in H.
      assert ((list_to_set varsA : nameSet) = list_to_set varsB) as Hs.
      { apply set_eq. intros y. by rewrite <- !elem_of_elements, H. }
      by rewrite <- !(elem_of_list_to_set (C:=nameSet)), Hs.
Qed.

Lemma C7_deterministic_up_to_capture_order_witness :
  ∃ progA progB,
    TransformS toArray0 range0 capturesTwo = Some progA ∧
    TransformS toArray1 range0 capturesTwo = Some progB ∧
    canonProgram progA = canonProgram progB ∧
    (∀ f vars, Closures progA !! f = Some vars → NoDup vars) ∧
    (∀ f varsA varsB, Closures progA !! f = Some varsA →
                      Closures progB !! f = Some varsB → varsA ≡ₚ varsB).
Proof.
  apply (C7_deterministic_up_to_capture_order toArray0 toArray1 range0 range0
           capturesTwo).
  - exact toArray0_order.
  - exact toArray1_order.
  - exact range0_order.
  - exact range0_order.
  - vm_compute. repeat constructor; set_solver.
Defined.

(** ** Duplicated states share nothing observable *)

Lemma apart_dup h t :
  GoHeap.allocated h t → GoHeap.apart h t (GoHeap.dup h t).1 (GoHeap.dup h t).2.
Proof.
  intros (Hk & Hf & Hc & Hb & Ha & Hs). unfold GoHeap.apart, GoHeap.dup. cbn.
  split_and!; try lia; try done.
  intros l Hl. by rewrite !lookup_insert_ne by lia.
Qed.

Lemma apart_apply h t h' d u :
  GoHeap.allocated h t → GoHeap.apart h t h' d →
  GoHeap.apart h t (GoHeap.apply (h', d) u).1 (GoHeap.apply (h', d) u).2.
Proof.
  intros (Hk & Hf & Hc & Hb & Ha & Hs).
  intros (Hn & Hmaps & Harr & Hdk & Hdf & Hdc & Hdb & Hds).
  destruct u as [name|insn make|app|name arr|name fv]; cbn.
  - split_and!; try done. intros l Hl. cbn.
    rewrite lookup_insert_ne by lia. by apply Hmaps.
  - split_and!; try done. intros l Hl. cbn.
    rewrite lookup_insert_ne by lia. by apply Hmaps.
  - unfold GoHeap.append. case_decide as Hcap; simpl.
    + split_and!; simpl; try done.
      * destruct (decide (GoHeap.array (GoHeap.closureCallsRef d)
                          = GoHeap.array (GoHeap.closureCallsRef t))) as [E|E].
        -- rewrite E, lookup_insert_eq. cbn.
           rewrite take_insert_ge; [done|]. apply Hds. lia.
        -- by rewrite lookup_insert_ne.
      * intros Hlt. destruct (Hds Hlt) as [-> ?]. split; [done|lia].
    + split_and!; simpl; try done; try lia.
      rewrite lookup_insert_ne by lia. done.
  - split_and!; try done. intros l Hl. cbn.
    rewrite lookup_insert_ne by lia. by apply Hmaps.
  - split_and!; simpl; try done; try lia. intros l Hl.
    rewrite !lookup_insert_ne by lia. by apply Hmaps.
Qed.

Lemma apart_foldl h t us :
  GoHeap.allocated h t → ∀ h' d, GoHeap.apart h t h' d →
  GoHeap.apart h t (foldl GoHeap.apply (h', d) us).1
                   (foldl GoHeap.apply (h', d) us).2.
Proof.
  intros Hal. induction us as [|u us IH]; intros h' d Hap; [done|].
  cbn [foldl]. pose proof (apart_apply h t h' d u Hal Hap) as H.
  destruct (GoHeap.apply (h', d) u) as [h'' d']. by apply IH.
Qed.

Lemma apart_observe h t h' d :
  GoHeap.allocated h t → GoHeap.apart h t h' d →
  GoHeap.observe h' t = GoHeap.observe h t.
Proof.
  intros (Hk & Hf & Hc & Hb & Ha & Hs).
  intros (Hn & Hmaps & Harr & _).
  unfold GoHeap.observe.
  destruct (Hmaps _ Hk) as (-> & _), (Hmaps _ Hf) as (_ & -> & _),
           (Hmaps _ Hc) as (_ & _ & -> & _), (Hmaps _ Hb) as (_ & _ & _ & ->).
  rewrite Harr. f_equal. apply map_eq. intros name. rewrite !lookup_omap.
  destruct (default ∅ (GoHeap.blockMaps h !! GoHeap.closureBlockFreeVarsRef t)
              !! name) as [l|] eqn:E; [|done].
  cbn. by destruct (Hmaps l (Hs _ _ E)) as (-> & _).
Qed.

(** Each write through a reference is the write on the value read. *)
Lemma apply_refines h t u :
  GoHeap.wellFormed h t →
  GoHeap.observe (GoHeap.apply (h, t) u).1 (GoHeap.apply (h, t) u).2 =
  GoHeap.applyValue (GoHeap.observe h t) u.
Proof.
  intros ((Hk & Hf & Hc & Hb & Ha & Hs) & (Hlen & Hcap) & Hsep).
  destruct u as [name|insn make|app|name arr|name fv];
    unfold GoHeap.observe; simpl.
  - rewrite lookup_insert_eq. simpl.
    unfold set_knownFuns; simpl. f_equal.
    apply map_eq. intros x. rewrite !lookup_omap.
    destruct (default ∅ (GoHeap.blockMaps h !! GoHeap.closureBlockFreeVarsRef t)
                !! x) as [l|] eqn:E; [|done].
    simpl. rewrite lookup_insert_ne; [done|]. intros <-. by eapply Hsep.
  - by rewrite lookup_insert_eq.
  - unfold GoHeap.append. case_decide as Hlt; simpl.
    + rewrite lookup_insert_eq. simpl. unfold set_closureCalls; simpl. f_equal.
      erewrite take_S_r; [|apply list_lookup_insert_eq; lia].
      by rewrite take_insert_ge by lia.
    + rewrite lookup_insert_eq. simpl. unfold set_closureCalls; simpl. f_equal.
      rewrite cons_middle, app_assoc. apply take_app_length'.
      rewrite length_app, length_take. simpl. lia.
  - by rewrite lookup_insert_eq.
  - rewrite !lookup_insert_eq. simpl. unfold set_closureBlockFreeVars; simpl.
    rewrite lookup_insert_ne by lia. f_equal.
    apply map_eq. intros x. rewrite lookup_omap.
    destruct (decide (name = x)) as [->|Hne].
    + rewrite !lookup_insert_eq. simpl. by rewrite lookup_insert_eq.
    + rewrite !lookup_insert_ne by done. rewrite lookup_omap.
      destruct (default ∅ (GoHeap.blockMaps h !! GoHeap.closureBlockFreeVarsRef t)
                  !! x) as [l|] eqn:E; [|done].
      simpl. rewrite lookup_insert_ne; [done|]. apply Hs in E. lia.
Qed.

Lemma wellFormed_apply h t u :
  GoHeap.wellFormed h t →
  GoHeap.wellFormed (GoHeap.apply (h, t) u).1 (GoHeap.apply (h, t) u).2.
Proof.
  intros ((Hk & Hf & Hc & Hb & Ha & Hs) & (Hlen & Hcap) & Hsep).
  unfold GoHeap.wellFormed, GoHeap.allocated, GoHeap.sliceOk, GoHeap.separate.
  destruct u as [name|insn make|app|name arr|name fv]; simpl.
  - by split_and!.
  - by split_and!.
  - unfold GoHeap.append. case_decide as Hlt; simpl.
    + split_and!; try done; try lia.
      rewrite lookup_insert_eq. simpl. by rewrite length_insert.
    + split_and!; try done; try lia.
      * intros x l E. apply Hs in E. lia.
      * rewrite lookup_insert_eq. simpl.
        rewrite length_app, length_take. simpl. rewrite length_replicate. lia.
  - by split_and!.
  - rewrite !lookup_insert_eq. simpl. split_and!; try done; try lia.
    + intros x l. destruct (decide (name = x)) as [->|Hne].
      * rewrite lookup_insert_eq. intros [= <-]. lia.
      * rewrite lookup_insert_ne by done. intros E%Hs. lia.
    + intros x l. destruct (decide (name = x)) as [->|Hne].
      * rewrite lookup_insert_eq. intros [= <-]. lia.
      * rewrite lookup_insert_ne by done. apply Hsep.
Qed.

Lemma foldl_apply_refines us :
  ∀ h t, GoHeap.wellFormed h t →
  GoHeap.observe (foldl GoHeap.apply (h, t) us).1 (foldl GoHeap.apply (h, t) us).2 =
  foldl GoHeap.applyValue (GoHeap.observe h t) us.
Proof.
  induction us as [|u us IH]; intros h t Hwf; [done|].
  cbn [foldl]. rewrite <- apply_refines by done.
  pose proof (wellFormed_apply h t u Hwf) as H.
  destruct (GoHeap.apply (h, t) u) as [h' t']. by apply IH.
Qed.

Lemma wellFormed_dup h t :
  GoHeap.wellFormed h t →
  GoHeap.wellFormed (GoHeap.dup h t).1 (GoHeap.dup h t).2.
Proof.
  intros ((Hk & Hf & Hc & Hb & Ha & Hs) & (Hlen & Hcap) & Hsep).
  unfold GoHeap.wellFormed, GoHeap.allocated, GoHeap.sliceOk, GoHeap.separate.
  simpl. rewrite !lookup_insert_eq. simpl. split_and!; try done; try lia.
  - intros x l E%Hs. lia.
  - intros x l E%Hs. lia.
Qed.

Lemma observe_dup h t :
  GoHeap.allocated h t →
  GoHeap.observe (GoHeap.dup h t).1 (GoHeap.dup h t).2 = dup (GoHeap.observe h t).
Proof.
  intros (Hk & Hf & Hc & Hb & Ha & Hs).
  unfold GoHeap.observe, GoHeap.dup, dup. cbn. rewrite !lookup_insert_eq. cbn.
  f_equal. apply map_eq. intros name. rewrite !lookup_omap.
  destruct (default ∅ (GoHeap.blockMaps h !! GoHeap.closureBlockFreeVarsRef t)
              !! name) as [l|] eqn:E; [|done].
  cbn. rewrite lookup_insert_ne; [done|]. apply Hs in E. lia.
Qed.

Lemma heap0_wellFormed : GoHeap.wellFormed GoHeap.heap0 GoHeap.trans0.
Proof.
  unfold GoHeap.wellFormed, GoHeap.allocated, GoHeap.sliceOk, GoHeap.separate.
  cbn. split_and!; try lia; done.
Qed.

(** An append through the duplicate does write into the array it shares
    with the original, beyond the length of the original. *)
Example append_writes_shared_array :
  let st := GoHeap.apply (GoHeap.dup GoHeap.heap0 GoHeap.trans0)
                         (GoHeap.AppendCall [7]) in
  GoHeap.arrays st.1 !! 4 = Some [[0]; [1]; [7]] ∧
  closureCalls (GoHeap.observe st.1 st.2) = [[0]; [1]; [7]] ∧
  closureCalls (GoHeap.observe st.1 GoHeap.trans0) = [[0]; [1]].
Proof. vm_compute. done. Qed.

(** C6.  For a state whose references point to allocated objects, the
    duplicate reads as a copy of the original, and after any sequence of
    writes through the duplicate (insertions into its four maps, appends to
    its list of closure calls) the original still reads as before.  When
    moreover the slice lies within its array and no cached set is the known
    set itself, the duplicate reads as the copy with these writes made. *)
Theorem C6_dup_frame h t us :
  GoHeap.allocated h t →
  GoHeap.observe (GoHeap.dup h t).1 (GoHeap.dup h t).2 = dup (GoHeap.observe h t) ∧
  GoHeap.observe (foldl GoHeap.apply (GoHeap.dup h t) us).1 t = GoHeap.observe h t ∧
  (GoHeap.wellFormed h t →
   GoHeap.observe (foldl GoHeap.apply (GoHeap.dup h t) us).1
                  (foldl GoHeap.apply (GoHeap.dup h t) us).2
   = foldl GoHeap.applyValue (dup (GoHeap.observe h t)) us).
Proof.
  intros Hal. split_and!.
  - by apply observe_dup.
  - pose proof (apart_dup h t Hal) as H.
    destruct (GoHeap.dup h t) as [h1 d]. cbn [fst snd] in H.
    eapply apart_observe; [done|]. by apply apart_foldl.
  - intros Hwf. rewrite <- observe_dup by done.
    pose proof (wellFormed_dup h t Hwf) as H.
    destruct (GoHeap.dup h t) as [h1 d]. by apply foldl_apply_refines.
Qed.

Lemma C6_dup_frame_witness :
  let us := [GoHeap.AppendCall [7]; GoHeap.AddKnown "f"%string;
             GoHeap.SetReplaced [7] None; GoHeap.SetClosure "f"%string [];
             GoHeap.SetBlockFreeVars "f"%string ∅; GoHeap.AppendCall [8]] in
  GoHeap.observe (GoHeap.dup GoHeap.heap0 GoHeap.trans0).1
                 (GoHeap.dup GoHeap.heap0 GoHeap.trans0).2
  = dup (GoHeap.observe GoHeap.heap0 GoHeap.trans0) ∧
  GoHeap.observe (foldl GoHeap.apply (GoHeap.dup GoHeap.heap0 GoHeap.trans0) us).1
                 GoHeap.trans0
  = GoHeap.observe GoHeap.heap0 GoHeap.trans0 ∧
  (GoHeap.wellFormed GoHeap.heap0 GoHeap.trans0 →
   GoHeap.observe (foldl GoHeap.apply (GoHeap.dup GoHeap.heap0 GoHeap.trans0) us).1
                  (foldl GoHeap.apply (GoHeap.dup GoHeap.heap0 GoHeap.trans0) us).2
   = foldl GoHeap.applyValue (dup (GoHeap.observe GoHeap.heap0 GoHeap.trans0)) us).
Proof.
  apply (C6_dup_frame GoHeap.heap0 GoHeap.trans0).
  unfold GoHeap.allocated. cbn. split_and!; try lia; done.
Defined.

(** ** The decisions of the committed traversal *)

Lemma nextAt_next ident val next j r :
  nextAt (mkInsn ident val next) (S j :: r) = nextAt next (j :: r).
Proof. reflexivity. Qed.

Lemma nextAt_body ident params body next j r :
  nextAt (mkInsn ident (Fun params body) next) (0 :: j :: r) = nextAt body (j :: r).
Proof. reflexivity. Qed.

Lemma reached_next K ident val next j r :
  reached K (mkInsn ident val next) (S j :: r) = reached K next (j :: r).
Proof. reflexivity. Qed.

Section DecisionFacts.

Variable toArray : nat → nameSet → list string.

Local Abbreviation exploreD := (explore toArray freeVars freeVarsFromPoint).

(** A decision is recorded exactly for the reached function literals ... *)
Lemma explore_decided insn :
  ∀ n t p k j r,
    reached (knownFuns t) insn (j :: r) →
    is_Some (replacedFuns (exploreD n t p k insn).1 !! (p ++ (k + j) :: r)).
Proof.
  induction insn as [|ident val next IHbody IHnext] using Insn_graph_ind;
    intros n t p k j r Hre; [done|].
  destruct j as [|j].
  - rewrite Nat.add_0_r. cbn [reached nthInsn] in Hre.
    destruct val as [ops|params body|callee args cl|vars fn]; try done.
    rewrite explore_Fun. cbn [fst snd]. rewrite replacedFuns_record.
    destruct r as [|j2 r2]; [by rewrite lookup_insert_eq|].
    destruct Hre as [Htest Hre].
    rewrite lookup_insert_ne by (apply path_neq_below; done).
    rewrite explore_replacedFuns_frame.
    2:{ intros j' r'. apply path_neq_index. lia. }
    destruct (settleS_closure toArray n t (p ++ [k]) ident params body Htest)
      as (n1 & m & ->). cbn [fst replacedFuns set_closures].
    pose proof (IHbody _ _ eq_refl n1 t (p ++ [k]) 0 j2 r2 Hre) as IH.
    by rewrite Nat.add_0_l, <- app_assoc in IH.
  - rewrite reached_next in Hre.
    assert (∀ n' t', knownFuns t' = knownFuns t →
      is_Some (replacedFuns (exploreD n' t' p (S k) next).1 !! (p ++ (k + S j) :: r)))
      as Hshift.
    { intros n' t' HK. rewrite <- Nat.add_succ_comm. apply IHnext. by rewrite HK. }
    destruct val as [ops|params body|callee args cl|vars fn].
    + by apply Hshift.
    + rewrite explore_Fun. cbn [fst snd]. rewrite replacedFuns_record.
      rewrite lookup_insert_ne by (apply path_neq_index; lia).
      apply Hshift, settle_knownFuns.
    + rewrite explore_App. apply Hshift. by case_decide.
    + by apply Hshift.
Qed.

(** ... and it is a closure construction exactly when the name of the
    function is free in the rest of its block. *)
Lemma explore_decision insn :
  ∀ n t p k q d,
    replacedFuns (exploreD n t p k insn).1 !! q = Some d →
    replacedFuns t !! q = Some d ∨
    ∃ j r ident params body,
      q = p ++ (k + j) :: r ∧
      reached (knownFuns t) insn (j :: r) ∧
      insnAt insn (j :: r) = Some (ident, Fun params body) ∧
      ((ident ∈ freeVarsFrom (knownFuns t) (nextAt insn (j :: r)) ∧
        ∃ vars, d = Some (mkMakeCls vars ident)) ∨
       (ident ∉ freeVarsFrom (knownFuns t) (nextAt insn (j :: r)) ∧ d = None)).
Proof.
  induction insn as [|ident val next IHbody IHnext] using Insn_graph_ind;
    intros n t p k q d; [by left|].
  assert (Hshift : ∀ n' t', knownFuns t' = knownFuns t →
    replacedFuns (exploreD n' t' p (S k) next).1 !! q = Some d →
    replacedFuns t' !! q = Some d ∨
    ∃ j r ident' params body,
      q = p ++ (k + j) :: r ∧
      reached (knownFuns t) (mkInsn ident val next) (j :: r) ∧
      insnAt (mkInsn ident val next) (j :: r) = Some (ident', Fun params body) ∧
      ((ident' ∈ freeVarsFrom (knownFuns t) (nextAt (mkInsn ident val next) (j :: r)) ∧
        ∃ vars, d = Some (mkMakeCls vars ident')) ∨
       (ident' ∉ freeVarsFrom (knownFuns t) (nextAt (mkInsn ident val next) (j :: r)) ∧
        d = None))).
  { intros n' t' HK H.
    destruct (IHnext _ _ _ _ _ _ H) as [?|(j & r & i & ps & b & -> & Hre & Hat & Hd)];
      [by left|right].
    exists (S j), r, i, ps, b. rewrite HK in Hre, Hd.
    by rewrite Nat.add_succ_r, reached_next, insnAt_next, nextAt_next. }
  destruct val as [ops|params body|callee args cl|vars0 fn].
  - by apply Hshift.
  - rewrite explore_Fun. cbn [fst snd]. rewrite replacedFuns_record.
    destruct (decide (p ++ [k] = q)) as [<-|Hne].
    { rewrite lookup_insert_eq.
      set (c := settle toArray freeVars freeVarsFromPoint n t (p ++ [k])
                       ident params body).
      assert (freeVarsFromPoint next (exploreD c.2 c.1 p (S k) next).1
              = freeVarsFrom (knownFuns t) next) as ->.
      { unfold freeVarsFromPoint. subst c.
        by rewrite explore_knownFuns, settle_knownFuns. }
      intros Hd. right. exists 0, [], ident, params, body. rewrite Nat.add_0_r.
      split_and!; [done..|]. cbn [nextAt after].
      destruct (decide (ident ∈ freeVarsFrom (knownFuns t) next));
        injection Hd as <-; [left|right]; (split; [done|]); [by eexists|done]. }
    rewrite lookup_insert_ne by done. intros H.
    destruct (Hshift _ _ (settle_knownFuns _ _ _ _ _ _ _ _ _) H) as [H'|?];
      [|by right].
    destruct (decide (size (freeVarsFrom ({[ident]} ∪ knownFuns t) body
                              ∖ list_to_set params) = 0)) as [H0|H0].
    + rewrite settleS_known in H' by done. by left.
    + destruct (settleS_closure toArray n t (p ++ [k]) ident params body H0)
        as (n1 & m & E). rewrite E in H'. cbn [fst replacedFuns set_closures] in H'.
      destruct (IHbody _ _ eq_refl _ _ _ _ _ _ H')
        as [?|(j & r & i & ps & b & -> & Hre & Hat & Hd)]; [by left|right].
      exists 0, (j :: r), i, ps, b.
      rewrite Nat.add_0_r, Nat.add_0_l, <- app_assoc.
      split_and!; [done| |done..]. cbn [reached nthInsn]. done.
  - rewrite explore_App. intros H.
    destruct (Hshift n (if decide (callee ∈ knownFuns t)
                        then set_closureCalls (λ cs, cs ++ [p ++ [k]]) t else t))
      as [H'|?]; [by case_decide|done| |by right].
    left. revert H'. by case_decide.
  - by apply Hshift.
Qed.

(** For a whole run: the instructions with a decision are the function
    literals reached by the committed traversal, and the decision is a
    closure construction exactly when the name is free in the rest of the
    block of the function. *)
Lemma classify_decisions ir q :
  (is_Some (replacedFuns (classifyS toArray ir) !! q) ↔ reached ∅ ir q) ∧
  ∀ d, replacedFuns (classifyS toArray ir) !! q = Some d →
    ∃ ident params body,
      insnAt ir q = Some (ident, Fun params body) ∧
      ((ident ∈ freeVarsFrom ∅ (nextAt ir q) ∧ ∃ vars, d = Some (mkMakeCls vars ident)) ∨
       (ident ∉ freeVarsFrom ∅ (nextAt ir q) ∧ d = None)).
Proof.
  unfold classifyS, classify, start. split; [split|].
  - intros [d H]. destruct (explore_decision _ _ _ _ _ _ _ H)
      as [H'|(j & r & i & ps & b & -> & Hre & _)]; [|done].
    cbn in H'. by rewrite lookup_empty in H'.
  - intros Hre. destruct q as [|j r]; [done|].
    by apply (explore_decided ir 0 emptyTrans [] 0 j r).
  - intros d H. destruct (explore_decision _ _ _ _ _ _ _ H)
      as [H'|(j & r & i & ps & b & -> & _ & Hat & Hd)].
    + cbn in H'. by rewrite lookup_empty in H'.
    + exists i, ps, b. split; [done|]. exact Hd.
Qed.

(** A reached function literal whose hypothesis fails is entered into the
    closures mapping. *)
Lemma explore_closure_entered insn :
  ∀ n t p k j r ident params body,
    reached (knownFuns t) insn (j :: r) →
    insnAt insn (j :: r) = Some (ident, Fun params body) →
    size (freeVarsFrom ({[ident]} ∪ knownFuns t) body ∖ list_to_set params) ≠ 0 →
    is_Some (closures (exploreD n t p k insn).1 !! ident).
Proof.
  induction insn as [|ident0 val next IHbody IHnext] using Insn_graph_ind;
    intros n t p k j r ident params body Hre Hat Htest; [done|].
  destruct j as [|j].
  - cbn [reached nthInsn] in Hre.
    destruct val as [ops|ps0 body0|callee args cl|vars fn]; try done.
    rewrite explore_Fun. cbn [fst snd]. rewrite closures_record.
    apply explore_closures_mono.
    destruct r as [|j2 r2].
    + cbn in Hat. injection Hat as -> -> ->.
      destruct (settleS_closure toArray n t (p ++ [k]) ident params body Htest)
        as (n1 & m & ->). cbn. by rewrite lookup_insert_eq.
    + destruct Hre as [Htest0 Hre]. rewrite insnAt_body in Hat.
      destruct (settleS_closure toArray n t (p ++ [k]) ident0 ps0 body0 Htest0)
        as (n1 & m & ->). cbn [fst closures set_closures].
      apply lookup_insert_is_Some'. right.
      by apply (IHbody _ _ eq_refl n1 t (p ++ [k]) 0 j2 r2 ident params body).
  - rewrite reached_next in Hre. rewrite insnAt_next in Hat.
    assert (∀ n' t', knownFuns t' = knownFuns t →
      is_Some (closures (exploreD n' t' p (S k) next).1 !! ident)) as Hshift.
    { intros n' t' HK.
      apply (IHnext n' t' p (S k) j r ident params body);
        [by rewrite HK|done|by rewrite HK]. }
    destruct val as [ops|ps0 body0|callee args cl|vars fn].
    + by apply Hshift.
    + rewrite explore_Fun. cbn [fst snd]. rewrite closures_record.
      apply Hshift, settle_knownFuns.
    + rewrite explore_App. apply Hshift. by case_decide.
    + by apply Hshift.
Qed.

(** Hence a reached function literal that ends outside of the closures
    mapping passed its test: under the known set of the final state with
    its own name added, its body has no free variable but parameters. *)
Lemma known_hypothesis_held ir q ident params body :
  reached ∅ ir q →
  insnAt ir q = Some (ident, Fun params body) →
  closures (classifyS toArray ir) !! ident = None →
  freeVars body (assumeKnown ident (classifyS toArray ir)) ∖ list_to_set params = ∅.
Proof.
  intros Hre Hat Hcl. apply size_zero_empty.
  unfold freeVars, freeVarsFromPoint, assumeKnown. cbn.
  unfold classifyS. rewrite classify_knownFuns.
  destruct (decide (size (freeVarsFrom ({[ident]} ∪ ∅) body ∖ list_to_set params) = 0))
    as [|Hne]; [done|].
  destruct q as [|j r]; [done|].
  pose proof (explore_closure_entered ir 0 emptyTrans [] 0 j r ident params body
                Hre Hat Hne) as [vars Hv].
  unfold classifyS, classify, start in Hcl. congruence.
Qed.

End DecisionFacts.

(** * Further properties of the pass *)

Section MoreExploreFacts.

Variable toArray : nat → nameSet → list string.
Variable gatherFreeVars : Block → transformWithKFO → nameSet.
Variable gatherFreeVarsTillTheEnd : Block → transformWithKFO → nameSet.

Local Abbreviation exploreM := (explore toArray gatherFreeVars gatherFreeVarsTillTheEnd).
Local Abbreviation settleM := (settle toArray gatherFreeVars gatherFreeVarsTillTheEnd).

(** A recorded decision stays recorded. *)
Lemma explore_replacedFuns_mono insn :
  ∀ n t p k q, is_Some (replacedFuns t !! q) →
    is_Some (replacedFuns (exploreM n t p k insn).1 !! q).
Proof.
  induction insn as [|ident val next IHbody IHnext] using Insn_graph_ind;
    intros n t p k q Hq; [done|].
  destruct val as [ops|params body|callee args cl|vars fn].
  - by apply IHnext.
  - rewrite explore_Fun. cbn [fst snd]. rewrite replacedFuns_record.
    apply lookup_insert_is_Some'. right. apply IHnext.
    unfold settle. case_decide; cbn [fst snd]; [|done].
    cbn. by apply (IHbody _ _ eq_refl).
  - rewrite explore_App. apply IHnext. by case_decide.
  - by apply IHnext.
Qed.

(** The closures mapping is only written at the names of the function
    literals explored. *)
Lemma explore_closures_frame insn :
  ∀ n t p k f, f ∉ funNames insn →
    closures (exploreM n t p k insn).1 !! f = closures t !! f.
Proof.
  induction insn as [|ident val next IHbody IHnext] using Insn_graph_ind;
    intros n t p k f Hf; [done|].
  cbn [funNames] in Hf. apply not_elem_of_app in Hf as [Hhere Hnext].
  destruct val as [ops|params body|callee args cl|vars fn].
  - by apply IHnext.
  - apply not_elem_of_cons in Hhere as [Hne Hbody].
    rewrite explore_Fun. cbn [fst snd]. rewrite closures_record, IHnext by done.
    unfold settle. case_decide; cbn [fst snd]; [|done].
    cbn. rewrite lookup_insert_ne by done. by apply (IHbody _ _ eq_refl).
  - rewrite explore_App, IHnext by done. by case_decide.
  - by apply IHnext.
Qed.

(** The records appended to the list of closure calls. *)
Lemma explore_appended_calls insn :
  ∀ n t p k, ∃ ext,
    closureCalls (exploreM n t p k insn).1 = closureCalls t ++ ext ∧
    ∀ q, q ∈ ext → ∃ j r ident callee args cl,
      q = p ++ (k + j) :: r ∧
      insnAt insn (j :: r) = Some (ident, App callee args cl) ∧
      callee ∈ knownFuns t.
Proof.
  induction insn as [|ident val next IHbody IHnext] using Insn_graph_ind;
    intros n t p k.
  { exists []. cbn. rewrite app_nil_r. split; [done|]. by intros q ?%elem_of_nil. }
  assert (Hshift : ∀ n' t', knownFuns t' = knownFuns t → ∃ ext,
    closureCalls (exploreM n' t' p (S k) next).1 = closureCalls t' ++ ext ∧
    ∀ q, q ∈ ext → ∃ j r ident' callee args cl,
      q = p ++ (k + j) :: r ∧
      insnAt (mkInsn ident val next) (j :: r) = Some (ident', App callee args cl) ∧
      callee ∈ knownFuns t).
  { intros n' t' HK. destruct (IHnext n' t' p (S k)) as (ext & E & Hq).
    exists ext. split; [done|]. intros q Hin.
    destruct (Hq q Hin) as (j & r & i & c & a & cl & -> & Hat & Hc).
    exists (S j), r, i, c, a, cl. rewrite Nat.add_succ_r, <- HK. by split_and!. }
  destruct val as [ops|params body|callee args cl|vars fn].
  - by apply Hshift.
  - rewrite explore_Fun. cbn [fst snd]. rewrite closureCalls_record.
    set (c := settleM n t (p ++ [k]) ident params body).
    destruct (Hshift c.2 c.1) as (ext2 & E2 & Hq2).
    { subst c. apply settle_knownFuns. }
    assert (∃ ext1, closureCalls c.1 = closureCalls t ++ ext1 ∧
              ∀ q, q ∈ ext1 → ∃ j r ident' callee args cl,
                q = p ++ (k + j) :: r ∧
                insnAt (mkInsn ident (Fun params body) next) (j :: r)
                = Some (ident', App callee args cl) ∧
                callee ∈ knownFuns t) as (ext1 & E1 & Hq1).
    { subst c. unfold settle. case_decide; cbn [fst snd].
      - destruct (IHbody _ _ eq_refl
                    (hypothesis toArray gatherFreeVars gatherFreeVarsTillTheEnd
                                n t (p ++ [k]) ident body).2
                    t (p ++ [k]) 0) as (ext & E & Hq).
        exists ext. split; [done|]. intros q Hin.
        destruct (Hq q Hin) as (j & r & i & c & a & cl & -> & Hat & Hc).
        exists 0, (j :: r), i, c, a, cl.
        by rewrite Nat.add_0_r, <- app_assoc.
      - exists []. rewrite app_nil_r. split; [done|]. by intros q ?%elem_of_nil. }
    exists (ext1 ++ ext2). split.
    + by rewrite E2, E1, app_assoc.
    + intros q [?|?]%elem_of_app; eauto.
  - rewrite explore_App.
    set (t' := if decide (callee ∈ knownFuns t) then _ else t).
    destruct (Hshift n t') as (ext & E & Hq).
    { subst t'. by case_decide. }
    subst t'. case_decide as Hc.
    + exists ([p ++ [k]] ++ ext). split.
      * rewrite E. cbn. by rewrite <- app_assoc.
      * intros q [->%list_elem_of_singleton|?]%elem_of_app; [|eauto].
        exists 0, [], ident, callee, args, cl. by rewrite Nat.add_0_r.
    + exists ext. by split.
  - by apply Hshift.
Qed.

(** A name entered into the closures mapping is the name of a function
    literal for which a decision is recorded as well. *)
Lemma explore_closure_decided insn :
  ∀ n t p k f, is_Some (closures (exploreM n t p k insn).1 !! f) →
    is_Some (closures t !! f) ∨
    ∃ j r params body,
      insnAt insn (j :: r) = Some (f, Fun params body) ∧
      is_Some (replacedFuns (exploreM n t p k insn).1 !! (p ++ (k + j) :: r)).
Proof.
  induction insn as [|ident val next IHbody IHnext] using Insn_graph_ind;
    intros n t p k f; [by left|].
  assert (Hshift : ∀ n' t',
    is_Some (closures (exploreM n' t' p (S k) next).1 !! f) →
    is_Some (closures t' !! f) ∨
    ∃ j r params body,
      insnAt (mkInsn ident val next) (j :: r) = Some (f, Fun params body) ∧
      is_Some (replacedFuns (exploreM n' t' p (S k) next).1 !! (p ++ (k + j) :: r))).
  { intros n' t' H.
    destruct (IHnext _ _ _ _ _ H) as [?|(j & r & ps & b & Hat & Hd)]; [by left|right].
    exists (S j), r, ps, b. by rewrite Nat.add_succ_r. }
  destruct val as [ops|params body|callee args cl|vars fn].
  - by apply Hshift.
  - rewrite explore_Fun. cbn [fst snd]. rewrite closures_record, replacedFuns_record.
    intros H. destruct (Hshift _ _ H) as [H'|(j & r & ps & b & Hat & Hd)].
    + revert H'. unfold settle at 1. case_decide; cbn [fst snd]; [|by left].
      cbn [closures set_closures]. intros H'.
      destruct (decide (ident = f)) as [->|Hne].
      { right. exists 0, [], params, body. split; [done|].
        rewrite Nat.add_0_r. by rewrite lookup_insert_eq. }
      rewrite lookup_insert_ne in H' by done.
      destruct (IHbody _ _ eq_refl _ _ _ _ _ H') as [?|(j & r & ps & b & Hat & Hd)];
        [by left|right].
      exists 0, (j :: r), ps, b. split; [done|].
      rewrite Nat.add_0_r. apply lookup_insert_is_Some'. right.
      apply explore_replacedFuns_mono.
      unfold settle. rewrite decide_True by done. cbn [fst replacedFuns set_closures].
      by rewrite Nat.add_0_l, <- app_assoc in Hd.
    + right. exists j, r, ps, b. split; [done|].
      apply lookup_insert_is_Some'. by right.
  - rewrite explore_App. intros H. destruct (Hshift _ _ H) as [H'|?]; [|by right].
    left. revert H'. by case_decide.
  - by apply Hshift.
Qed.

(** Every function literal of the explored block itself gets a decision. *)
Lemma explore_block_decided insn :
  ∀ n t p k j ident params body,
    nthInsn j insn = Some (ident, Fun params body) →
    is_Some (replacedFuns (exploreM n t p k insn).1 !! (p ++ [k + j])).
Proof.
  induction insn as [|ident0 val next IHbody IHnext] using Insn_graph_ind;
    intros n t p k j ident params body Hat; [done|].
  destruct j as [|j].
  - cbn in Hat. injection Hat as -> ->. rewrite Nat.add_0_r.
    rewrite explore_Fun. cbn [fst snd]. rewrite replacedFuns_record.
    by rewrite lookup_insert_eq.
  - cbn [nthInsn] in Hat. rewrite <- Nat.add_succ_comm.
    destruct val as [ops|ps0 body0|callee args cl|vars fn].
    + by eapply IHnext.
    + rewrite explore_Fun. cbn [fst snd]. rewrite replacedFuns_record.
      apply lookup_insert_is_Some'. right. by eapply IHnext.
    + rewrite explore_App. by eapply IHnext.
    + by eapply IHnext.
Qed.

(** With distinct function names, a recorded closure construction names
    the function it replaces and carries the capture list that the closures
    mapping holds for it at the end, or the empty list. *)
Lemma explore_makecls insn :
  ∀ n t p k q make, NoDup (funNames insn) →
    replacedFuns (exploreM n t p k insn).1 !! q = Some (Some make) →
    replacedFuns t !! q = Some (Some make) ∨
    ∃ j r ident params body,
      q = p ++ (k + j) :: r ∧
      insnAt insn (j :: r) = Some (ident, Fun params body) ∧
      FunName make = ident ∧
      Vars make = default [] (closures (exploreM n t p k insn).1 !! ident).
Proof.
  induction insn as [|ident val next IHbody IHnext] using Insn_graph_ind;
    intros n t p k q make Hnd; [by left|].
  cbn [funNames] in Hnd. apply NoDup_app in Hnd as (Hhere & Hdisj & Hnext).
  assert (Hshift : ∀ n1 t1,
    replacedFuns (exploreM n1 t1 p (S k) next).1 !! q = Some (Some make) →
    replacedFuns t1 !! q = Some (Some make) ∨
    ∃ j r ident1 params body,
      q = p ++ (k + j) :: r ∧
      insnAt (mkInsn ident val next) (j :: r) = Some (ident1, Fun params body) ∧
      FunName make = ident1 ∧
      Vars make = default [] (closures (exploreM n1 t1 p (S k) next).1 !! ident1)).
  { intros n1 t1 H.
    destruct (IHnext _ _ _ _ _ _ Hnext H)
      as [?|(j & r & i & ps & b & -> & Hat & HF & HV)]; [by left|right].
    exists (S j), r, i, ps, b. by rewrite Nat.add_succ_r. }
  destruct val as [ops|params body|callee args cl|vars fn].
  - by apply Hshift.
  - apply NoDup_cons in Hhere as [Hident Hbody].
    rewrite explore_Fun. cbn [fst snd]. rewrite replacedFuns_record, closures_record.
    set (c := settleM n t (p ++ [k]) ident params body).
    destruct (decide (p ++ [k] = q)) as [<-|Hne].
    { rewrite lookup_insert_eq. intros Hd. right.
      exists 0, [], ident, params, body. rewrite Nat.add_0_r.
      case_decide; [|done]. injection Hd as <-. by split_and!. }
    rewrite lookup_insert_ne by done. intros H.
    destruct (Hshift _ _ H) as [H1|?]; [|by right].
    revert H1. subst c. unfold settle at 1 2. case_decide; cbn [fst snd]; [|by left].
    cbn [replacedFuns set_closures]. intros H1.
    destruct (IHbody _ _ eq_refl _ _ _ _ _ _ Hbody H1)
      as [?|(j & r & i & ps & b & -> & Hat & HF & HV)]; [by left|right].
    exists 0, (j :: r), i, ps, b. rewrite Nat.add_0_r, Nat.add_0_l, <- app_assoc.
    split_and!; [done..|]. rewrite HV.
    pose proof (insnAt_funNames _ _ _ _ _ Hat) as Hi.
    rewrite (explore_closures_frame next).
    2:{ intros Hin. apply (Hdisj i); [right; exact Hi|exact Hin]. }
    unfold settle. rewrite decide_True by done.
    cbn [fst closures set_closures]. rewrite lookup_insert_ne; [done|]. by intros ->.
  - rewrite explore_App. intros H. destruct (Hshift _ _ H) as [H1|?]; [|by right].
    left. revert H1. by case_decide.
  - by apply Hshift.
Qed.

End MoreExploreFacts.

(** ** The read-back of the graph *)

Lemma view_noEdits insn : ∀ p k, view noEdits p k insn = insn.
Proof.
  induction insn as [|ident val next IHbody IHnext] using Insn_graph_ind;
    intros p k; [done|].
  cbn [view]. rewrite decide_False by set_solver. cbn. rewrite lookup_empty.
  rewrite IHnext. f_equal.
  destruct val as [ops|params body|callee args cl|vars fn]; try done.
  by rewrite (IHbody _ _ eq_refl).
Qed.

(** Where every function literal of a block is removed or replaced, the
    block read back holds no function literal. *)
Lemma view_no_fun e insn :
  ∀ p k,
    (∀ j ident params body, nthInsn j insn = Some (ident, Fun params body) →
       p ++ [k + j] ∈ removed e ∨ is_Some (newVal e !! (p ++ [k + j]))) →
    ∀ i ident v, nthInsn i (view e p k insn) = Some (ident, v) → ¬ isFun v.
Proof.
  induction insn as [|ident0 val next IH]; intros p k Hall i ident v; [done|].
  assert (∀ i1, nthInsn i1 (view e p (S k) next) = Some (ident, v) → ¬ isFun v)
    as Hrest.
  { intros i1. apply IH. intros j id ps b Hj.
    rewrite Nat.add_succ_comm. by apply (Hall (S j) id ps b). }
  cbn [view]. case_decide as Hrm; [by apply Hrest|].
  destruct i as [|i]; [|by apply Hrest].
  cbn [nthInsn]. intros [= <- <-].
  destruct (newVal e !! (p ++ [k])) as [mk|] eqn:E; [by intros []|].
  destruct val as [ops|params body|callee args cl|vars fn]; try by intros [].
  destruct (Hall 0 ident0 params body eq_refl) as [H|[? H]];
    rewrite Nat.add_0_r in H; [done|congruence].
Qed.

(** ** The top-level table *)

Lemma foldl_enterToplevel_Some ir ds :
  ∀ top name q, foldl (enterToplevel ir) top ds !! name = Some q →
    top !! name = Some q ∨ (q ∈ ds.*1 ∧ nameOf ir q = name).
Proof.
  induction ds as [|[q1 d1] ds IH]; intros top name q H; [by left|].
  cbn [foldl] in H. destruct (IH _ _ _ H) as [H1|[? ?]].
  - unfold enterToplevel in H1. cbn in H1.
    destruct (decide (nameOf ir q1 = name)) as [<-|Hne].
    + rewrite lookup_insert_eq in H1. injection H1 as <-. right.
      split; [left|done].
    + rewrite lookup_insert_ne in H1 by done. by left.
  - right. split; [by right|done].
Qed.

Lemma foldl_enterToplevel_is_Some ir ds :
  ∀ top name, is_Some (top !! name) ∨ (∃ q, q ∈ ds.*1 ∧ nameOf ir q = name) →
    is_Some (foldl (enterToplevel ir) top ds !! name).
Proof.
  induction ds as [|[q1 d1] ds IH]; intros top name H.
  { destruct H as [?|(q & Hin & _)]; [done|]. by apply elem_of_nil in Hin. }
  cbn [foldl]. apply IH. unfold enterToplevel. cbn.
  destruct H as [H|(q & Hin & Hname)].
  - left. apply lookup_insert_is_Some'. by right.
  - cbn in Hin. apply elem_of_cons in Hin as [->|Hin].
    + left. rewrite Hname. by rewrite lookup_insert_eq.
    + right. by exists q.
Qed.

(** ** What a run records *)

(** X1.  [explore] never writes the known set of the state it is run on:
    whatever the block, the known set after the traversal is the one
    before.  The only write to a known set is on the duplicate. *)
Theorem explore_keeps_known_set
  toArray gatherFreeVars gatherFreeVarsTillTheEnd n t p k insn :
  knownFuns (explore toArray gatherFreeVars gatherFreeVarsTillTheEnd n t p k insn).1
  = knownFuns t.
Proof. apply explore_knownFuns. Qed.

(** X2.  [explore] only appends to the list of closure calls, and every
    record it appends is an application of the explored block whose callee
    is in the known set of the state. *)
Theorem explore_appends_known_calls
  toArray gatherFreeVars gatherFreeVarsTillTheEnd n t p k insn :
  ∃ ext,
    closureCalls (explore toArray gatherFreeVars gatherFreeVarsTillTheEnd
                          n t p k insn).1 = closureCalls t ++ ext ∧
    ∀ q, q ∈ ext → ∃ j r ident callee args cl,
      q = p ++ (k + j) :: r ∧
      insnAt insn (j :: r) = Some (ident, App callee args cl) ∧
      callee ∈ knownFuns t.
Proof. apply explore_appended_calls. Qed.

(** X3.  [explore] records decisions only for the instructions of the
    block it explores and of the bodies nested in it: the decision of any
    other instruction is as before. *)
Theorem explore_decisions_frame
  toArray gatherFreeVars gatherFreeVarsTillTheEnd n t p k insn q :
  (∀ j r, q ≠ p ++ (k + j) :: r) →
  replacedFuns (explore toArray gatherFreeVars gatherFreeVarsTillTheEnd n t p k insn).1
    !! q = replacedFuns t !! q.
Proof. apply explore_replacedFuns_frame. Qed.

Lemma explore_decisions_frame_witness :
  replacedFuns (explore toArray0 freeVars freeVarsFromPoint 0
                  (set_replacedFuns (insert [0] None) emptyTrans) [] 1 callsClosure).1
    !! [0] = replacedFuns (set_replacedFuns (insert [0] None) emptyTrans) !! [0].
Proof.
  apply (explore_decisions_frame toArray0 freeVars freeVarsFromPoint 0
           (set_replacedFuns (insert [0] None) emptyTrans) [] 1 callsClosure [0]).
  intros j r H. simpl in H. injection H as H. lia.
Defined.

(** X4.  [explore] never drops what the state holds: every instruction
    with a decision keeps one, and every function with a capture list
    keeps one. *)
Theorem explore_keeps_entries
  toArray gatherFreeVars gatherFreeVarsTillTheEnd n t p k insn :
  dom (replacedFuns t) ⊆
  dom (replacedFuns
         (explore toArray gatherFreeVars gatherFreeVarsTillTheEnd n t p k insn).1) ∧
  dom (closures t) ⊆
  dom (closures
         (explore toArray gatherFreeVars gatherFreeVarsTillTheEnd n t p k insn).1).
Proof.
  split; intros x; rewrite !elem_of_dom.
  - apply explore_replacedFuns_mono.
  - apply explore_closures_mono.
Qed.

Section MoreTransformFacts.

Variable toArray : nat → nameSet → list string.
Variable gatherFreeVars : Block → transformWithKFO → nameSet.
Variable gatherFreeVarsTillTheEnd : Block → transformWithKFO → nameSet.
Variable rangeReplaced : gmap path (option MakeCls) → list (path * option MakeCls).
Hypothesis range_ok : rangeOrder rangeReplaced.

Local Abbreviation classifyT := (classify toArray gatherFreeVars gatherFreeVarsTillTheEnd).
Local Abbreviation TransformT :=
  (Transform toArray gatherFreeVars gatherFreeVarsTillTheEnd rangeReplaced).

(** The result of [Transform], spelled out. *)
Lemma Transform_result ir :
  TransformT ir =
  Some (readProgram ir (closures (classifyT ir))
          (foldl (enterToplevel ir) ∅ (rangeReplaced (replacedFuns (classifyT ir))),
           foldl applyDecision noEdits (rangeReplaced (replacedFuns (classifyT ir))))).
Proof using range_ok.
  unfold Transform. rewrite rewrite_Some; [|done|apply classify_isFunAt].
  by rewrite classify_closureCalls.
Qed.

Lemma decided_in_range ir q :
  q ∈ (rangeReplaced (replacedFuns (classifyT ir))).*1 ↔
  is_Some (replacedFuns (classifyT ir) !! q).
Proof using range_ok.
  rewrite list_elem_of_fmap. split.
  - intros ([q1 d] & -> & Hin). apply range_elem in Hin; [|done]. by eexists.
  - intros [d Hd]. exists (q, d). split; [done|]. by apply range_elem.
Qed.

Lemma classify_closure_decided ir f :
  is_Some (closures (classifyT ir) !! f) →
  ∃ q params body,
    insnAt ir q = Some (f, Fun params body) ∧
    is_Some (replacedFuns (classifyT ir) !! q).
Proof.
  intros H. unfold classify, start in H.
  destruct (explore_closure_decided _ _ _ _ _ _ _ _ _ H)
    as [[? H1]|(j & r & ps & b & Hat & Hd)].
  - cbn in H1. by rewrite lookup_empty in H1.
  - by exists (j :: r), ps, b.
Qed.

Lemma toplevel_closure_entry ir prog f :
  TransformT ir = Some prog →
  is_Some (Closures prog !! f) → is_Some (Toplevel prog !! f).
Proof using range_ok.
  rewrite Transform_result. intros [= <-]. cbn [Closures Toplevel readProgram fst snd].
  intros (q & ps & b & Hat & Hd)%classify_closure_decided.
  destruct (foldl_enterToplevel_is_Some ir
              (rangeReplaced (replacedFuns (classifyT ir))) ∅ f) as [q1 Hq1].
  { right. exists q. split; [by apply decided_in_range|].
    unfold nameOf. by rewrite Hat. }
  rewrite lookup_omap, Hq1. cbn.
  destruct (foldl_enterToplevel_Some _ _ _ _ _ Hq1) as [H|[Hin Hname]].
  { by rewrite lookup_empty in H. }
  apply decided_in_range in Hin as [d Hd1].
  destruct (classify_keys _ _ _ _ _ _ Hd1) as (i & ps1 & b1 & Hat1).
  unfold viewFun. rewrite Hat1. by eexists.
Qed.

Lemma toplevel_entry_decided ir prog f params b :
  TransformT ir = Some prog →
  Toplevel prog !! f = Some (params, b) →
  ∃ q body,
    is_Some (replacedFuns (classifyT ir) !! q) ∧
    insnAt ir q = Some (f, Fun params body).
Proof using range_ok.
  rewrite Transform_result. intros [= <-]. cbn [Toplevel readProgram fst snd].
  rewrite lookup_omap. intros H.
  destruct (foldl _ _ _ !! f) as [q|] eqn:Hq; [|done]. cbn in H.
  destruct (foldl_enterToplevel_Some _ _ _ _ _ Hq) as [H1|[Hin Hname]].
  { by rewrite lookup_empty in H1. }
  apply decided_in_range in Hin. unfold viewFun in H. unfold nameOf in Hname.
  destruct (insnAt ir q) as [[i [?|ps body|? ? ?|? ?]]|] eqn:Hat; try done.
  injection H as <- <-. subst i. by exists q, body.
Qed.

Lemma no_function_no_decision ir :
  funNames ir = [] → replacedFuns (classifyT ir) = ∅ ∧ closures (classifyT ir) = ∅.
Proof.
  intros Hno. split; apply map_eq; intros x; rewrite lookup_empty.
  - destruct (replacedFuns (classifyT ir) !! x) as [d|] eqn:E; [|done].
    destruct (classify_keys _ _ _ _ _ _ E) as (i & ps & b & Hat).
    apply insnAt_funNames in Hat. rewrite Hno in Hat. by apply elem_of_nil in Hat.
  - unfold classify, start. rewrite explore_closures_frame; [done|].
    rewrite Hno. apply not_elem_of_nil.
Qed.

Lemma entry_without_function ir prog i ident v :
  TransformT ir = Some prog →
  nthInsn i (Entry prog) = Some (ident, v) → ¬ isFun v.
Proof using range_ok.
  rewrite Transform_result. intros [= <-]. cbn [Entry readProgram snd].
  apply view_no_fun. intros j id ps b Hj. cbn [app Nat.add].
  destruct (explore_block_decided toArray gatherFreeVars gatherFreeVarsTillTheEnd
              ir 0 emptyTrans [] 0 j id ps b Hj) as [d Hd].
  cbn [app Nat.add] in Hd. fold (classifyT ir) in Hd.
  destruct d as [mk|].
  - right. rewrite (foldl_applyDecision_newVal_Some _ (range_NoDup _ range_ok _) _ [j] mk);
      [by eexists|]. by apply range_elem.
  - left. apply foldl_applyDecision_removed. left. by apply range_elem.
Qed.

End MoreTransformFacts.

(** X5.  In a graph whose function names are pairwise distinct, every
    closure construction that the classification records is for a function
    literal, names that function, and carries the capture list recorded for
    it in the closures mapping, or the empty list when there is none. *)
Theorem makecls_names_function
  toArray gatherFreeVars gatherFreeVarsTillTheEnd ir q make :
  NoDup (funNames ir) →
  replacedFuns (classify toArray gatherFreeVars gatherFreeVarsTillTheEnd ir) !! q
  = Some (Some make) →
  ∃ ident params body,
    insnAt ir q = Some (ident, Fun params body) ∧
    FunName make = ident ∧
    Vars make =
    default [] (closures (classify toArray gatherFreeVars gatherFreeVarsTillTheEnd ir)
                  !! ident).
Proof.
  intros Hnd H. unfold classify, start in *.
  destruct (explore_makecls _ _ _ _ _ _ _ _ _ _ Hnd H)
    as [H1|(j & r & i & ps & b & -> & Hat & HF & HV)].
  - cbn in H1. by rewrite lookup_empty in H1.
  - by exists i, ps, b.
Qed.

Lemma makecls_names_function_witness :
  ∃ ident params body,
    insnAt capturesTwo [2] = Some (ident, Fun params body) ∧
    FunName (mkMakeCls ["w"; "z"]%string "f"%string) = ident ∧
    Vars (mkMakeCls ["w"; "z"]%string "f"%string) =
    default [] (closures (classify toArray0 freeVars freeVarsFromPoint capturesTwo)
                  !! ident).
Proof.
  apply (makecls_names_function toArray0 freeVars freeVarsFromPoint capturesTwo [2]).
  - vm_compute. repeat constructor; set_solver.
  - vm_compute. reflexivity.
Defined.

(** X6.  Every function that [Transform] enters into the capture table of
    the program it returns is also in its top-level function table. *)
Theorem closure_has_toplevel_entry
  toArray gatherFreeVars gatherFreeVarsTillTheEnd rangeReplaced ir prog f :
  rangeOrder rangeReplaced →
  Transform toArray gatherFreeVars gatherFreeVarsTillTheEnd rangeReplaced ir
  = Some prog →
  is_Some (Closures prog !! f) → is_Some (Toplevel prog !! f).
Proof. intros Hr. by apply toplevel_closure_entry. Qed.

Lemma closure_has_toplevel_entry_witness :
  is_Some (Toplevel callsClosure_out !! "f"%string).
Proof.
  apply (closure_has_toplevel_entry toArray0 freeVars freeVarsFromPoint range0
           callsClosure).
  - exact range0_order.
  - vm_compute. reflexivity.
  - vm_compute. eexists. reflexivity.
Defined.

(** X7.  Every entry of the top-level function table of the program
    returned is a function literal of the input for which a decision was
    recorded, entered under its own name with its own parameter list. *)
Theorem toplevel_entry_is_function_literal
  toArray gatherFreeVars gatherFreeVarsTillTheEnd rangeReplaced ir prog f params b :
  rangeOrder rangeReplaced →
  Transform toArray gatherFreeVars gatherFreeVarsTillTheEnd rangeReplaced ir
  = Some prog →
  Toplevel prog !! f = Some (params, b) →
  ∃ q body,
    is_Some (replacedFuns (classify toArray gatherFreeVars gatherFreeVarsTillTheEnd ir)
               !! q) ∧
    insnAt ir q = Some (f, Fun params body).
Proof. intros Hr. by apply toplevel_entry_decided. Qed.

Lemma toplevel_entry_is_function_literal_witness :
  ∃ q body,
    is_Some (replacedFuns (classify toArray0 freeVars freeVarsFromPoint callsClosure)
               !! q) ∧
    insnAt callsClosure q = Some ("f"%string, Fun ["x"%string] body).
Proof.
  apply (toplevel_entry_is_function_literal toArray0 freeVars freeVarsFromPoint range0
           callsClosure callsClosure_out "f"%string ["x"%string]
           (mkInsn "y"%string (Prim ["x"; "a"]%string) Bottom)).
  - exact range0_order.
  - vm_compute. reflexivity.
  - vm_compute. reflexivity.
Defined.

(** X8.  A graph without any function literal is returned as it is, with
    an empty top-level table and an empty capture table. *)
Theorem Transform_without_functions
  toArray gatherFreeVars gatherFreeVarsTillTheEnd rangeReplaced ir :
  rangeOrder rangeReplaced →
  funNames ir = [] →
  Transform toArray gatherFreeVars gatherFreeVarsTillTheEnd rangeReplaced ir
  = Some (mkProgram ∅ ∅ ir).
Proof.
  intros Hr Hno. rewrite Transform_result by done.
  destruct (no_function_no_decision toArray gatherFreeVars gatherFreeVarsTillTheEnd
              ir Hno) as [-> ->].
  assert (rangeReplaced ∅ = []) as ->.
  { apply Permutation_nil_r. by rewrite (Hr ∅), map_to_list_empty. }
  unfold readProgram. cbn. by rewrite omap_empty, view_noEdits.
Qed.

Lemma Transform_without_functions_witness :
  Transform toArray0 freeVars freeVarsFromPoint range0
            (mkInsn "a"%string (Prim [])
               (mkInsn "r"%string (App "print"%string ["a"%string] false) Bottom))
  = Some (mkProgram ∅ ∅
            (mkInsn "a"%string (Prim [])
               (mkInsn "r"%string (App "print"%string ["a"%string] false) Bottom))).
Proof.
  apply (Transform_without_functions toArray0 freeVars freeVarsFromPoint range0).
  - exact range0_order.
  - reflexivity.
Defined.

(** X9.  The outermost block of the program returned holds no function
    literal: each one of the input block is either detached or replaced by
    a closure construction. *)
Theorem Entry_has_no_function_literal
  toArray gatherFreeVars gatherFreeVarsTillTheEnd rangeReplaced ir prog i ident v :
  rangeOrder rangeReplaced →
  Transform toArray gatherFreeVars gatherFreeVarsTillTheEnd rangeReplaced ir
  = Some prog →
  nthInsn i (Entry prog) = Some (ident, v) → ¬ isFun v.
Proof. intros Hr. by apply entry_without_function. Qed.

Lemma Entry_has_no_function_literal_witness :
  ¬ isFun (MakeClsV (I:=Insn) ["a"%string] "f"%string).
Proof.
  apply (Entry_has_no_function_literal toArray0 freeVars freeVarsFromPoint range0
           callsClosure callsClosure_out 1 "f"%string).
  - exact range0_order.
  - vm_compute. reflexivity.
  - reflexivity.
Defined.

(** ** The instructions without a decision *)

(** Where the edits mark no call and target function literals only, the
    block read back has the primitive operations and applications of the
    block, unchanged and in their order. *)
Lemma view_keeps_plain e ir :
  closureSet e = ∅ →
  (∀ q, q ∈ removed e ∨ is_Some (newVal e !! q) →
        ∃ ident params body, insnAt ir q = Some (ident, Fun params body)) →
  ∀ insn k, (∀ j, nthInsn j insn = nthInsn (k + j) ir) →
  filter plain (insns (view e [] k insn)) = filter plain (insns insn).
Proof.
  intros Hcl Hfun. induction insn as [|ident val next IH]; intros k Hat; [done|].
  assert (insnAt ir [k] = Some (ident, val)) as Hk.
  { cbn. rewrite <- (Nat.add_0_r k). by rewrite <- Hat. }
  assert (filter plain (insns (view e [] (S k) next)) = filter plain (insns next))
    as Hrest.
  { apply IH. intros j. rewrite Nat.add_succ_comm. apply (Hat (S j)). }
  cbn [view app]. case_decide as Hrm.
  - destruct (Hfun [k]) as (i & ps & b & Hi); [by left|].
    rewrite Hk in Hi. injection Hi as <- ->.
    cbn [insns]. rewrite filter_cons_False; [done|]. by intros [].
  - destruct (newVal e !! [k]) as [mk|] eqn:E.
    + destruct (Hfun [k]) as (i & ps & b & Hi); [right; by eexists|].
      rewrite Hk in Hi. injection Hi as <- ->.
      cbn [insns]. rewrite !filter_cons_False; [done|by intros []..].
    + cbn [insns]. destruct val as [ops|params body|callee args cl|vars fn].
      * rewrite !filter_cons_True by done. by rewrite Hrest.
      * rewrite !filter_cons_False; [done|by intros []..].
      * rewrite decide_False by (rewrite Hcl; set_solver).
        rewrite !filter_cons_True by done. by rewrite Hrest.
      * rewrite !filter_cons_False; [done|by intros []..].
Qed.

(** X10.  The primitive operations and the applications of the outermost
    block are returned as they are and in their order: [Transform] changes
    none of them, the indirect flag of an application included. *)
Theorem Transform_keeps_plain_instructions
  toArray gatherFreeVars gatherFreeVarsTillTheEnd rangeReplaced ir prog :
  rangeOrder rangeReplaced →
  Transform toArray gatherFreeVars gatherFreeVarsTillTheEnd rangeReplaced ir
  = Some prog →
  filter plain (insns (Entry prog)) = filter plain (insns ir).
Proof.
  intros Hr. rewrite Transform_result by done. intros [= <-].
  cbn [Entry readProgram snd]. apply (view_keeps_plain _ ir).
  - by rewrite foldl_applyDecision_closureSet.
  - intros q Hq.
    assert (is_Some (replacedFuns
              (classify toArray gatherFreeVars gatherFreeVarsTillTheEnd ir) !! q))
      as [d Hd].
    { destruct Hq as [Hq|[mk Hq]].
      - apply foldl_applyDecision_removed in Hq as [Hq|Hq]; [|set_solver].
        apply range_elem in Hq; [|done]. by eexists.
      - destruct (replacedFuns
            (classify toArray gatherFreeVars gatherFreeVarsTillTheEnd ir) !! q)
          as [d|] eqn:E; [by eexists|].
        rewrite foldl_applyDecision_newVal_other in Hq.
        + cbn in Hq. by rewrite lookup_empty in Hq.
        + intros make Hin. apply range_elem in Hin; [|done]. congruence. }
    by apply classify_keys in Hd.
  - intros j. done.
Qed.

Lemma Transform_keeps_plain_instructions_witness :
  filter plain (insns (Entry callsClosure_out)) = filter plain (insns callsClosure).
Proof.
  apply (Transform_keeps_plain_instructions toArray0 freeVars freeVarsFromPoint range0).
  - exact range0_order.
  - vm_compute. reflexivity.
Defined.

(** ** Sharing of the call list after [dup] *)

(** X11.  The duplicate keeps the slice header of the original.  When the
    original has spare capacity, a record appended through the original
    after one was appended through the duplicate overwrites it: the
    duplicate then reads the record of the original.  Without spare
    capacity each append allocates an array of its own and the duplicate
    keeps its record. *)
Theorem dup_shares_spare_capacity h t x y :
  GoHeap.wellFormed h t →
  let st1 := GoHeap.apply (GoHeap.dup h t) (GoHeap.AppendCall x) in
  let st2 := GoHeap.apply (st1.1, t) (GoHeap.AppendCall y) in
  closureCalls (GoHeap.observe st2.1 st1.2) =
  closureCalls (GoHeap.observe h t) ++
  [if decide (GoHeap.len (GoHeap.closureCallsRef t) < GoHeap.cap (GoHeap.closureCallsRef t))
   then y else x].
Proof.
  intros ((Hk & Hf & Hc & Hb & Ha & Hs) & (Hlen & Hcap) & Hsep).
  destruct t as [kr fr [arr n c] cr br]. cbn in *.
  unfold GoHeap.apply, GoHeap.dup, GoHeap.append; cbn.
  destruct (decide (n < c)) as [Hlt|Hge]; cbn.
  - rewrite !lookup_insert_eq. cbn.
    set (old := default [] (GoHeap.arrays h !! arr)) in *.
    rewrite list_insert_insert_eq.
    rewrite (take_S_r _ _ y).
    + rewrite take_insert_ge by lia. done.
    + apply list_lookup_insert_eq. lia.
  - try rewrite decide_False by done. cbn.
    rewrite lookup_insert_ne by lia. rewrite lookup_insert_eq. cbn.
    set (old := default [] (GoHeap.arrays h !! arr)) in *.
    assert (n = c) as -> by lia.
    rewrite (take_ge old) by lia.
    rewrite take_app_ge by lia. rewrite Hcap.
    replace (S c - c) with 1 by lia. done.
Qed.

Lemma dup_shares_spare_capacity_witness :
  let st1 := GoHeap.apply (GoHeap.dup GoHeap.heap0 GoHeap.trans0)
                          (GoHeap.AppendCall [7]) in
  let st2 := GoHeap.apply (st1.1, GoHeap.trans0) (GoHeap.AppendCall [8]) in
  closureCalls (GoHeap.observe st2.1 st1.2) =
  closureCalls (GoHeap.observe GoHeap.heap0 GoHeap.trans0) ++
  [if decide (GoHeap.len (GoHeap.closureCallsRef GoHeap.trans0)
              < GoHeap.cap (GoHeap.closureCallsRef GoHeap.trans0))
   then [8] else [7]].
Proof.
  apply (dup_shares_spare_capacity GoHeap.heap0 GoHeap.trans0 [7] [8]).
  unfold GoHeap.wellFormed, GoHeap.allocated, GoHeap.sliceOk, GoHeap.separate.
  cbn. split_and!; try lia; done.
Defined.

(** * Dereferencing of type variables *)

(** Induction over a type, its components included. *)
Lemma Ty_graph_ind (P : deref.Ty → Prop) :
  P deref.Unit → P deref.Bool → P deref.Int → P deref.Float → P deref.String →
  (∀ ret params, P ret → Forall P params → P (deref.Fun ret params)) →
  (∀ elems, Forall P elems → P (deref.Tuple elems)) →
  (∀ elem, P elem → P (deref.Array elem)) →
  (∀ elem, P elem → P (deref.Option elem)) →
  (∀ id generic, P (deref.Var None id generic)) →
  (∀ ref id generic, P ref → P (deref.Var (Some ref) id generic)) →
  ∀ t, P t.
Proof.
  intros HU HB HI HF HS HFun HTuple HArray HOption HFree HLink.
  fix IH 1. intros [| | | | |ret params|elems|elem|elem|[ref|] id generic].
  - exact HU.
  - exact HB.
  - exact HI.
  - exact HF.
  - exact HS.
  - apply HFun; [apply IH|].
    induction params as [|p ps IHps]; constructor; [apply IH|exact IHps].
  - apply HTuple.
    induction elems as [|p ps IHps]; constructor; [apply IH|exact IHps].
  - apply HArray, IH.
  - apply HOption, IH.
  - apply HLink, IH.
  - apply HFree.
Qed.

Lemma errMsg_err d msg :
  deref.err (deref.errMsg d msg) = Some (default [] (deref.err d) ++ [msg]).
Proof. unfold deref.errMsg. cbn. by destruct (deref.err d). Qed.

Section UnwrapFacts.

Variable typeString : deref.Ty → string.

Local Abbreviation unwrapT := (deref.unwrap typeString).

(** The two ways a call ends: with a dereferenced type and the
    dereferencer as it was, or with one message added. *)
Local Abbreviation ends d t :=
  ((∃ t', unwrapT d t = (d, Some t') ∧ deref.dereferenced d t' = true) ∨
   (∃ msg, unwrapT d t = (deref.errMsg d msg, None))).

Lemma unwrapEach_cases elems :
  Forall (λ t, ∀ d, ends d t) elems →
  ∀ d, (∃ es, deref.unwrapEach unwrapT d elems = (d, Some es) ∧
              forallb (deref.dereferenced d) es = true) ∨
       (∃ msg, deref.unwrapEach unwrapT d elems = (deref.errMsg d msg, None)).
Proof.
  induction 1 as [|elem rest Helem _ IH]; intros d; cbn.
  { left. by exists []. }
  destruct (Helem d) as [(e & -> & He)|(msg & ->)]; [|right; by exists msg].
  destruct (IH d) as [(es & -> & Hes)|(msg & ->)]; [|right; by exists msg].
  left. exists (e :: es). cbn. by rewrite He, Hes.
Qed.

Lemma unwrap_cases t : ∀ d, ends d t.
Proof.
  induction t as [| | | | |ret params IHret IHparams|elems IH|elem IH|elem IH
                 |id generic|ref id generic IH] using Ty_graph_ind; intros d;
    try (left; eexists; by split).
  - cbn [deref.unwrap]. unfold deref.unwrapFun.
    destruct (IHret d) as [(r & -> & Hr)|(msg & ->)]; [|right; by exists msg].
    destruct (unwrapEach_cases params IHparams d) as [(ps & -> & Hps)|(msg & ->)];
      [|right; by exists msg].
    left. exists (deref.Fun r ps). cbn. by rewrite Hr, Hps.
  - cbn [deref.unwrap].
    destruct (unwrapEach_cases elems IH d) as [(es & -> & Hes)|(msg & ->)];
      [|right; by exists msg].
    left. by exists (deref.Tuple es).
  - cbn [deref.unwrap].
    destruct (IH d) as [(e & -> & He)|(msg & ->)]; [|right; by exists msg].
    left. by exists (deref.Array e).
  - cbn [deref.unwrap].
    destruct (IH d) as [(e & -> & He)|(msg & ->)]; [|right; by exists msg].
    left. by exists (deref.Option e).
  - cbn [deref.unwrap]. unfold deref.unwrapVar.
    destruct generic; [|right; by eexists].
    destruct (deref.isInstantiated d id) eqn:E; cbn; [|right; by eexists].
    left. eexists. split; [done|]. by cbn.
  - cbn [deref.unwrap deref.unwrapVar]. apply IH.
Qed.

Lemma unwrapEach_dereferenced d elems :
  Forall (λ t, deref.dereferenced d t = true → unwrapT d t = (d, Some t)) elems →
  forallb (deref.dereferenced d) elems = true →
  deref.unwrapEach unwrapT d elems = (d, Some elems).
Proof.
  induction 1 as [|elem rest Helem _ IH]; [done|]. cbn.
  intros [He Hrest]%andb_prop. by rewrite (Helem He), (IH Hrest).
Qed.

Lemma unwrap_dereferenced d t :
  deref.dereferenced d t = true → unwrapT d t = (d, Some t).
Proof.
  induction t as [| | | | |ret params IHret IHparams|elems IH|elem IH|elem IH
                 |id generic|ref id generic IH] using Ty_graph_ind;
    try done; cbn [deref.dereferenced deref.unwrap].
  - intros [Hr Hps]%andb_prop. unfold deref.unwrapFun.
    by rewrite (IHret Hr), (unwrapEach_dereferenced d params IHparams Hps).
  - intros Hes. by rewrite (unwrapEach_dereferenced d elems IH Hes).
  - intros He. by rewrite (IH He).
  - intros He. by rewrite (IH He).
  - unfold deref.unwrapVar. destruct generic; [|done]. by intros ->.
Qed.

Lemma unwrapEach_same_result elems :
  Forall (λ t, ∀ d1 d2, deref.symBounds d1 = deref.symBounds d2 →
                        (unwrapT d1 t).2 = (unwrapT d2 t).2) elems →
  ∀ d1 d2, deref.symBounds d1 = deref.symBounds d2 →
  (deref.unwrapEach unwrapT d1 elems).2 = (deref.unwrapEach unwrapT d2 elems).2.
Proof.
  induction 1 as [|elem rest Helem Hall IH]; intros d1 d2 Hb; [done|]. cbn.
  specialize (Helem d1 d2 Hb).
  destruct (unwrap_cases elem d1) as [(e1 & E1 & _)|(m1 & E1)],
           (unwrap_cases elem d2) as [(e2 & E2 & _)|(m2 & E2)];
    rewrite E1, E2 in Helem |- *; cbn in Helem; try done.
  injection Helem as <-. specialize (IH d1 d2 Hb).
  destruct (deref.unwrapEach unwrapT d1 rest) as [? [?|]],
           (deref.unwrapEach unwrapT d2 rest) as [? [?|]]; cbn in *; congruence.
Qed.

Lemma unwrap_same_result t :
  ∀ d1 d2, deref.symBounds d1 = deref.symBounds d2 →
  (unwrapT d1 t).2 = (unwrapT d2 t).2.
Proof.
  induction t as [| | | | |ret params IHret IHparams|elems IH|elem IH|elem IH
                 |id generic|ref id generic IH] using Ty_graph_ind;
    intros d1 d2 Hb; try done; cbn [deref.unwrap].
  - unfold deref.unwrapFun. specialize (IHret d1 d2 Hb).
    destruct (unwrap_cases ret d1) as [(r1 & E1 & _)|(m1 & E1)],
             (unwrap_cases ret d2) as [(r2 & E2 & _)|(m2 & E2)];
      rewrite E1, E2 in IHret |- *; cbn in IHret; try done.
    injection IHret as <-.
    pose proof (unwrapEach_same_result params IHparams d1 d2 Hb) as H.
    destruct (deref.unwrapEach unwrapT d1 params) as [? [?|]],
             (deref.unwrapEach unwrapT d2 params) as [? [?|]]; cbn in *; congruence.
  - pose proof (unwrapEach_same_result elems IH d1 d2 Hb) as H.
    destruct (deref.unwrapEach unwrapT d1 elems) as [? [?|]],
             (deref.unwrapEach unwrapT d2 elems) as [? [?|]]; cbn in *; congruence.
  - specialize (IH d1 d2 Hb).
    destruct (unwrapT d1 elem) as [? [?|]], (unwrapT d2 elem) as [? [?|]];
      cbn in *; congruence.
  - specialize (IH d1 d2 Hb).
    destruct (unwrapT d1 elem) as [? [?|]], (unwrapT d2 elem) as [? [?|]];
      cbn in *; congruence.
  - unfold deref.unwrapVar, deref.isInstantiated. rewrite Hb.
    destruct generic; [|done]. by case_bool_decide.
  - cbn [deref.unwrapVar]. by apply IH.
Qed.

End UnwrapFacts.

(** X12.  When [unwrap] succeeds, the type it returns is dereferenced: no
    variable in it is linked, and each one is generic and bound by a scheme
    in scope.  The dereferencer is as before; no message is recorded. *)
Theorem unwrap_success_dereferenced typeString d t d' t' :
  deref.unwrap typeString d t = (d', Some t') →
  d' = d ∧ deref.dereferenced d t' = true.
Proof.
  intros H. destruct (unwrap_cases typeString t d) as [(t1 & E & Ht)|(msg & E)];
    rewrite E in H; [|done].
  by injection H as <- <-.
Qed.

Lemma unwrap_success_dereferenced_witness :
  deref.mkDeref None {[ "f"%string := {[1]} ]} =
  deref.mkDeref None {[ "f"%string := {[1]} ]} ∧
  deref.dereferenced (deref.mkDeref None {[ "f"%string := {[1]} ]})
    (deref.Array (deref.Var None 1 true)) = true.
Proof.
  apply (unwrap_success_dereferenced (λ _, "t"%string)
           (deref.mkDeref None {[ "f"%string := {[1]} ]})
           (deref.Array (deref.Var (Some (deref.Var None 1 true)) 2 false))).
  vm_compute. reflexivity.
Defined.

(** X13.  When [unwrap] fails, it has recorded exactly one message after
    those recorded before, so that the error of the dereferencer is set;
    the bound sets are as before. *)
Theorem unwrap_failure_records_one_message typeString d t d' :
  deref.unwrap typeString d t = (d', None) →
  deref.symBounds d' = deref.symBounds d ∧
  ∃ msg, deref.err d' = Some (default [] (deref.err d) ++ [msg]).
Proof.
  intros H. destruct (unwrap_cases typeString t d) as [(t1 & E & Ht)|(msg & E)];
    rewrite E in H; [done|].
  injection H as <-. split; [done|]. exists msg. apply errMsg_err.
Qed.

Lemma unwrap_failure_records_one_message_witness :
  deref.symBounds (deref.mkDeref (Some ["m"%string; "Cannot instantiate generic type variable"%string]) ∅)
  = deref.symBounds (deref.mkDeref (Some ["m"%string]) ∅) ∧
  ∃ msg,
    deref.err (deref.mkDeref (Some ["m"%string; "Cannot instantiate generic type variable"%string]) ∅)
    = Some (default [] (deref.err (deref.mkDeref (Some ["m"%string]) ∅)) ++ [msg]).
Proof.
  apply (unwrap_failure_records_one_message (λ _, "t"%string)
           (deref.mkDeref (Some ["m"%string]) ∅)
           (deref.Tuple [deref.Int; deref.Var None 3 true])).
  vm_compute. reflexivity.
Defined.

(** X14.  [unwrap] returns a type as it is, without a message, exactly when
    the type is dereferenced. *)
Theorem unwrap_fixed_point typeString d t :
  deref.unwrap typeString d t = (d, Some t) ↔ deref.dereferenced d t = true.
Proof.
  split; [|apply unwrap_dereferenced].
  intros H. destruct (unwrap_cases typeString t d) as [(t1 & E & Ht)|(msg & E)];
    rewrite E in H; [|done].
  by injection H as ->.
Qed.

(** X15.  [unwrap] is idempotent: unwrapping the type returned by a
    successful call returns that type again and records nothing. *)
Theorem unwrap_idempotent typeString d t d' t' :
  deref.unwrap typeString d t = (d', Some t') →
  deref.unwrap typeString d' t' = (d', Some t').
Proof.
  intros H. destruct (unwrap_cases typeString t d) as [(t1 & E & Ht)|(msg & E)];
    rewrite E in H; [|done].
  injection H as <- <-. by apply unwrap_dereferenced.
Qed.

Lemma unwrap_idempotent_witness :
  deref.unwrap (λ _, "t"%string) (deref.mkDeref None {[ "f"%string := {[1]} ]})
    (deref.Fun deref.Int [deref.Var None 1 true])
  = (deref.mkDeref None {[ "f"%string := {[1]} ]},
     Some (deref.Fun deref.Int [deref.Var None 1 true])).
Proof.
  apply (unwrap_idempotent (λ _, "t"%string)
           (deref.mkDeref None {[ "f"%string := {[1]} ]})
           (deref.Fun (deref.Var (Some deref.Int) 5 false)
              [deref.Var (Some (deref.Var None 1 true)) 6 false])).
  vm_compute. reflexivity.
Defined.

(** X16.  Whether [unwrap] succeeds, and with which type, does not depend
    on the messages recorded before the call. *)
Theorem unwrap_ignores_recorded_messages typeString e1 e2 bounds t :
  (deref.unwrap typeString (deref.mkDeref e1 bounds) t).2 =
  (deref.unwrap typeString (deref.mkDeref e2 bounds) t).2.
Proof. by apply unwrap_same_result. Qed.

(** X17.  [fixExternalFuncRet] either returns the unit type, or a type that
    [unwrap] treats as it treats the given one: same result, same
    messages. *)
Theorem fixExternalFuncRet_unit_or_same typeString d ret :
  deref.fixExternalFuncRet ret = deref.UnitType ∨
  deref.unwrap typeString d (deref.fixExternalFuncRet ret)
  = deref.unwrap typeString d ret.
Proof.
  induction ret as [| | | | |ret params _ _|elems _|elem _|elem _
                   |id generic|ref id generic IH] using Ty_graph_ind;
    try (by right); try (by left).
  - destruct generic; [by right|by left].
  - exact IH.
Qed.

(** X18.  [fixExternalFuncRet] never returns a linked variable nor an
    unlinked variable that is not generic: a variable it returns is unlinked
    and generic. *)
Theorem fixExternalFuncRet_variable ret ref id generic :
  deref.fixExternalFuncRet ret = deref.Var ref id generic →
  ref = None ∧ generic = true.
Proof.
  induction ret as [| | | | |ret params _ _|elems _|elem _|elem _
                   |id0 generic0|ref0 id0 generic0 IH] using Ty_graph_ind;
    try done.
  destruct generic0; [|done]. cbn. by intros [= <- <- <-].
Qed.

Lemma fixExternalFuncRet_variable_witness :
  (None : option deref.Ty) = None ∧ true = true.
Proof.
  apply (fixExternalFuncRet_variable
           (deref.Var (Some (deref.Var (Some (deref.Var None 4 true)) 3 false)) 2 false)
           None 4 true).
  reflexivity.
Defined.

(** * Fatal failures and reported errors of the two passes *)

Section DerefExternalsFacts.

Variable typeString : deref.Ty → string.

Local Abbreviation unwrapS := (sema.unwrap typeString).
Local Abbreviation unwrapV := (deref.unwrap typeString).

(** The calls with their stores return what the calls read as values
    return. *)
Lemma unwrapEach_stores_value elems :
  Forall (λ t, ∀ d, unwrapV d t = ((unwrapS d t).1.1, (unwrapS d t).2)) elems →
  ∀ d, deref.unwrapEach unwrapV d elems =
       ((sema.unwrapEach unwrapS d elems).1.1,
        if (sema.unwrapEach unwrapS d elems).2
        then Some (sema.unwrapEach unwrapS d elems).1.2 else None).
Proof.
  induction 1 as [|elem rest Helem _ IH]; intros d; [done|]. cbn.
  rewrite (Helem d). destruct (unwrapS d elem) as [[d1 after] [e|]]; [|done].
  cbn. rewrite (IH d1).
  by destruct (sema.unwrapEach unwrapS d1 rest) as [[d2 rest'] [|]].
Qed.

Lemma unwrap_stores_value t :
  ∀ d, unwrapV d t = ((unwrapS d t).1.1, (unwrapS d t).2).
Proof.
  induction t as [| | | | |ret params IHret IHparams|elems IH|elem IH|elem IH
                 |id generic|ref id generic IH] using Ty_graph_ind; intros d;
    try done.
  - cbn [deref.unwrap sema.unwrap]. unfold deref.unwrapFun, sema.unwrapFun.
    rewrite (IHret d). destruct (unwrapS d ret) as [[d1 after] [r|]]; [|done].
    cbn. rewrite (unwrapEach_stores_value params IHparams d1).
    by destruct (sema.unwrapEach unwrapS d1 params) as [[d2 ps] [|]].
  - cbn [deref.unwrap sema.unwrap].
    rewrite (unwrapEach_stores_value elems IH d).
    by destruct (sema.unwrapEach unwrapS d elems) as [[d2 es] [|]].
  - cbn [deref.unwrap sema.unwrap]. rewrite (IH d).
    by destruct (unwrapS d elem) as [[d1 after] [e|]].
  - cbn [deref.unwrap sema.unwrap]. rewrite (IH d).
    by destruct (unwrapS d elem) as [[d1 after] [e|]].
  - cbn [deref.unwrap sema.unwrap]. unfold deref.unwrapVar, sema.unwrapVar.
    destruct generic; [|done]. by destruct (deref.isInstantiated d id).
  - cbn [deref.unwrap sema.unwrap deref.unwrapVar sema.unwrapVar].
    rewrite (IH d). by destruct (unwrapS d ref) as [[d1 after] r].
Qed.

Lemma errMsg_is_Some d msg : is_Some (deref.err (deref.errMsg d msg)).
Proof. rewrite errMsg_err. by eexists. Qed.

Lemma externalSymError_is_Some d n t :
  is_Some (deref.err (sema.externalSymError typeString d n t)).
Proof. apply errMsg_is_Some. Qed.

(** A call of [unwrap] leaves an error in place, and leaves one when it
    fails. *)
Lemma unwrap_stores_err d t :
  (is_Some (deref.err d) → is_Some (deref.err (unwrapS d t).1.1)) ∧
  ((unwrapS d t).2 = None → is_Some (deref.err (unwrapS d t).1.1)).
Proof.
  pose proof (unwrap_stores_value t d) as Hv.
  destruct (unwrap_cases typeString t d) as [(t1 & E & _)|(msg & E)];
    rewrite E in Hv; injection Hv as <- <-.
  - by split.
  - split; intros _; apply errMsg_is_Some.
Qed.

Lemma derefExternalSym_err d n t :
  (is_Some (deref.err d) →
   is_Some (deref.err (sema.derefExternalSym typeString d n t).1)) ∧
  (sema.endsUnlinked t = true →
   is_Some (deref.err (sema.derefExternalSym typeString d n t).1)).
Proof.
  induction t as [| | | | |ret params _ _|elems _|elem _|elem _
                 |id generic|ref id generic IH] using Ty_graph_ind;
    try (split; [by intros ?|done]).
  - change (sema.derefExternalSym typeString d n (deref.Fun ret params))
      with (match unwrapS d (deref.Fun (deref.fixExternalFuncRet ret) params) with
            | (d, ty, None) => (sema.externalSymError typeString d n ty, ty)
            | (d, _, Some t) => (d, t)
            end).
    destruct (unwrap_stores_err d (deref.Fun (deref.fixExternalFuncRet ret) params))
      as [H1 _].
    destruct (unwrapS d _) as [[d1 ty] [t|]]; cbn in *;
      (split; [|done]); [done|]. intros _. apply externalSymError_is_Some.
  - change (sema.derefExternalSym typeString d n (deref.Tuple elems))
      with (match unwrapS d (deref.Tuple elems) with
            | (d, ty, None) => (sema.externalSymError typeString d n ty, ty)
            | (d, _, Some t) => (d, t)
            end).
    destruct (unwrap_stores_err d (deref.Tuple elems)) as [H1 _].
    destruct (unwrapS d _) as [[d1 ty] [t|]]; cbn in *;
      (split; [|done]); [done|]. intros _. apply externalSymError_is_Some.
  - change (sema.derefExternalSym typeString d n (deref.Array elem))
      with (match unwrapS d (deref.Array elem) with
            | (d, ty, None) => (sema.externalSymError typeString d n ty, ty)
            | (d, _, Some t) => (d, t)
            end).
    destruct (unwrap_stores_err d (deref.Array elem)) as [H1 _].
    destruct (unwrapS d _) as [[d1 ty] [t|]]; cbn in *;
      (split; [|done]); [done|]. intros _. apply externalSymError_is_Some.
  - change (sema.derefExternalSym typeString d n (deref.Option elem))
      with (match unwrapS d (deref.Option elem) with
            | (d, ty, None) => (sema.externalSymError typeString d n ty, ty)
            | (d, _, Some t) => (d, t)
            end).
    destruct (unwrap_stores_err d (deref.Option elem)) as [H1 _].
    destruct (unwrapS d _) as [[d1 ty] [t|]]; cbn in *;
      (split; [|done]); [done|]. intros _. apply externalSymError_is_Some.
  - split; intros _; apply externalSymError_is_Some.
  - exact IH.
Qed.

Lemma derefExternals_err externals :
  ∀ d done,
    (is_Some (deref.err d) ∨
     ∃ n t, (n, t) ∈ externals ∧ sema.endsUnlinked t = true) →
    is_Some (deref.err
      (foldl (λ acc nt,
              let '(d, t) := sema.derefExternalSym typeString acc.1 nt.1 nt.2 in
              (d, acc.2 ++ [(nt.1, t)]))
             (d, done) externals).1).
Proof.
  induction externals as [|[n0 t0] externals IH]; intros d done H.
  { destruct H as [H|(n & t & Hin & _)]; [done|]. by apply elem_of_nil in Hin. }
  cbn [foldl fst snd].
  destruct (derefExternalSym_err d n0 t0) as [Hmono Hun].
  destruct (sema.derefExternalSym typeString d n0 t0) as [d1 t1].
  apply IH. cbn in *. destruct H as [H|(n & t & Hin & Ht)]; [left; by apply Hmono|].
  apply elem_of_cons in Hin as [[= -> ->]|Hin]; [left; by apply Hun|].
  right. by exists n, t.
Qed.

End DerefExternalsFacts.

(** C9, as stated, fails: the function holding the scope-bookkeeping check,
    [derefTypeVars], hands a user-facing error back to its caller.  Here an
    external symbol whose type is an unlinked type variable is reported,
    with no bound identifier left and no panic. *)
Lemma C9_counterexample : ¬ FailsOnlyFatally.
Proof.
  intros (_ & _ & H).
  eapply (H (λ _, "t"%string) (λ d _, inr d) (λ _, "b"%string)
            [("x"%string, deref.Var None 0 false)]).
  vm_compute. reflexivity.
Qed.

(** C9 (amended).  The rewriting loop of [Transform] panics exactly when a
    recorded decision targets an instruction that is not a function
    literal; on the decisions of its own classification it never does, and
    [Transform] has no error result.  [derefTypeVars] panics exactly when
    the walk over the program panics or, the walk having returned, bound
    identifiers remain; when it does not panic it returns the error the
    dereferencer holds after the walk, if any.  That error is a user-facing
    one: whenever the type of an external symbol ends in an unlinked type
    variable and the walk keeps the errors recorded before it,
    [derefTypeVars] does not return nil. *)
Theorem C9_fatal_failures rangeReplaced :
  rangeOrder rangeReplaced →
  (∀ ir t e, rewrite rangeReplaced ir t e = None ↔ badDecision ir t e) ∧
  (∀ toArray gatherFreeVars gatherFreeVarsTillTheEnd ir,
     is_Some (Transform toArray gatherFreeVars gatherFreeVarsTillTheEnd
                        rangeReplaced ir)) ∧
  (∀ typeString Visit boundsString externals,
     let after := sema.derefExternals typeString (deref.mkDeref None ∅) externals in
     let run := sema.derefTypeVars typeString Visit boundsString externals in
     ((∃ msg, run = sema.Panic msg) ↔
      (∃ msg, Visit after.1 after.2 = inl msg) ∨
      (∃ v, Visit after.1 after.2 = inr v ∧ size (deref.symBounds v) ≠ 0)) ∧
     (∀ v, Visit after.1 after.2 = inr v → size (deref.symBounds v) = 0 →
           run = sema.Returned (deref.err v)) ∧
     ((∀ d ext v, Visit d ext = inr v →
                  is_Some (deref.err d) → is_Some (deref.err v)) →
      (∃ n t, (n, t) ∈ externals ∧ sema.endsUnlinked t = true) →
      run ≠ sema.Returned None)).
Proof.
  intros Hr. split_and!.
  - intros ir t e. by apply rewrite_panics_iff.
  - intros. by apply Transform_runs.
  - intros typeString Visit boundsString externals after run.
    assert (is_Some (deref.err after.1) ∨
            ¬ ∃ n t, (n, t) ∈ externals ∧ sema.endsUnlinked t = true) as Herr.
    { destruct (decide (Exists (λ nt, sema.endsUnlinked nt.2 = true) externals))
        as [Hex|Hno].
      - left. apply derefExternals_err. right.
        apply Exists_exists in Hex as ([n t] & Hin & Ht). by exists n, t.
      - right. intros (n & t & Hin & Ht). apply Hno, Exists_exists.
        by exists (n, t). }
    unfold run, sema.derefTypeVars. fold after.
    destruct after as [v0 ext]. cbn [fst snd] in *.
    destruct (Visit v0 ext) as [msg|v] eqn:Hv.
    + split_and!.
      * split; [intros _; left; by exists msg|intros _; by exists msg].
      * by intros v [=].
      * by intros _ _ [=].
    + case_decide as Hs.
      * split_and!.
        -- split; [intros _; right; by exists v|intros _; by eexists].
        -- intros v1 [= <-] H0. by rewrite H0 in Hs.
        -- by intros _ _ [=].
      * split_and!.
        -- split; [by intros [? [=]]|].
           intros [[msg [=]]|(v1 & [= <-] & Hne)]. done.
        -- by intros v1 [= <-] _.
        -- intros Hkeep Hex. destruct Herr as [Herr|Hno]; [|done].
           destruct (Hkeep v0 ext v Hv Herr) as [e He]. rewrite He. by intros [=].
Qed.

Lemma C9_fatal_failures_witness :
  rangeOrder range0 ∧
  (rewrite range0 callsClosure (classifyS toArray0 callsClosure) noEdits = None ↔
   badDecision callsClosure (classifyS toArray0 callsClosure) noEdits) ∧
  sema.derefTypeVars (λ _, "t"%string) (λ d _, inr d) (λ _, "b"%string)
    [("x"%string, deref.Var (Some (deref.Var None 1 false)) 0 false)]
  ≠ sema.Returned None.
Proof.
  split; [exact range0_order|]. split.
  - exact (proj1 (C9_fatal_failures range0 range0_order) callsClosure
                 (classifyS toArray0 callsClosure) noEdits).
  - apply (proj2 (proj2 (proj2 (proj2 (C9_fatal_failures range0 range0_order))
             (λ _, "t"%string) (λ d _, inr d) (λ _, "b"%string)
             [("x"%string, deref.Var (Some (deref.Var None 1 false)) 0 false)]))).
    + by intros d ext v [= <-].
    + exists "x"%string, (deref.Var (Some (deref.Var None 1 false)) 0 false).
      split; [left|reflexivity].
Defined.
